(** * ISAAC pseudorandom generator of coreutils (src/rand-isaac.c)

    A shallow embedding of the generator, of its seeding protocol and of the
    uniform sampler built on top of it, followed by the properties that the
    design document states about them.

    Conventions.  A [uint32_t] is a [Z] in [[0, 2^32)]; every operation that
    can leave that range in C is followed by an explicit [wrap].  Arrays are
    lists indexed from 0, read with the total lookup [l !!! i] and written
    with [<[i:=v]> l].  An access outside an array is undefined behaviour in
    C; in the model such a read gives a fixed word and such a write does
    nothing, and the lemmas show that the generator never performs one on
    arrays of the declared sizes.  The fields of the two C structures keep
    their names behind the prefixes [s_] and [r_]. *)

From Stdlib Require Import ZArith Lia.
From Stdlib.Strings Require Import Byte.
From stdpp Require Import base numbers list.

Local Open Scope Z_scope.

(** ** Machine words *)

Definition modulus : Z := 2 ^ 32.

Definition wrap (x : Z) : Z := x mod modulus.

(** [x + y], [x << n], [x >> n], [x ^ y] and unary [-x] on [uint32_t]. *)
Definition add32 (x y : Z) : Z := wrap (x + y).
Definition shl32 (x n : Z) : Z := wrap (Z.shiftl x n).
Definition shr32 (x n : Z) : Z := Z.shiftr x n.
Definition xor32 (x y : Z) : Z := Z.lxor x y.
Definition neg32 (x : Z) : Z := wrap (- x).

Definition is_word (x : Z) : bool := (0 <=? x) && (x <? modulus).

Definition all_words (l : list Z) : bool := forallb is_word l.

(** ** Sizes *)

Definition ISAAC_LOG : Z := 8.
Definition ISAAC_WORDS : Z := Z.shiftl 1 ISAAC_LOG.
Definition sizeof_uint32 : Z := 4.
Definition ISAAC_BYTES : Z := ISAAC_WORDS * sizeof_uint32.

(** ** Counted loops

    [for (i = i0; i < bound; i += step) body] and
    [do body while ((m += step) < bound)], the latter with the value that
    [m] has on exit.  The guard is the one of the source; [fuel] only
    bounds the recursion, and the lemmas below show that the loops of this
    file leave through their guard. *)

Fixpoint for_loop {St : Type} (fuel : nat) (i bound step : Z)
    (body : Z -> St -> St) (st : St) : St :=
  match fuel with
  | O => st
  | S fuel' =>
      if i <? bound
      then for_loop fuel' (i + step) bound step body (body i st)
      else st
  end.

Fixpoint do_while {St : Type} (fuel : nat) (m bound step : Z)
    (body : Z -> St -> St) (st : St) : Z * St :=
  match fuel with
  | O => (m, st)
  | S fuel' =>
      let st' := body m st in
      let m' := m + step in
      if m' <? bound
      then do_while fuel' m' bound step body st'
      else (m', st')
  end.

(** ** RNG state variables *)

Record isaac_state : Type := mk_isaac {
  s_mm : list Z;      (* uint32_t mm[ISAAC_WORDS]: main state array *)
  s_iv : list Z;      (* uint32_t iv[8]: seeding initial vector *)
  s_a : Z;
  s_b : Z;
  s_c : Z
}.

Definition set_mm (s : isaac_state) (mm : list Z) : isaac_state :=
  mk_isaac mm (s_iv s) (s_a s) (s_b s) (s_c s).

Definition set_c (s : isaac_state) (c : Z) : isaac_state :=
  mk_isaac (s_mm s) (s_iv s) (s_a s) (s_b s) c.

(** Array element [arr[i]] for a C index [i]. *)
Definition word_at (arr : list Z) (i : Z) : Z := arr !!! Z.to_nat i.

(** Assignment [arr[i] = v]. *)
Definition store_at (arr : list Z) (i : Z) (v : Z) : list Z :=
  <[Z.to_nat i := v]> arr.

(** ** The index operation

    [ind (mm, x)] reads the [uint32_t] found [x & (ISAAC_WORDS - 1) *
    sizeof (uint32_t)] bytes after the start of [mm]; in C the product binds
    tighter than [&], so the mask is [255 * 4]. *)

Definition ind_offset (x : Z) : Z :=
  Z.land x ((ISAAC_WORDS - 1) * sizeof_uint32).

(** The word stored at byte offset [off] of an array of [uint32_t]. *)
Definition load32 (arr : list Z) (off : Z) : Z :=
  word_at arr (off / sizeof_uint32).

Definition ind (mm : list Z) (x : Z) : Z := load32 mm (ind_offset x).

(** ** The central step and the refill *)

(** Local variables of [isaac_refill]: the caches [a] and [b], the two
    arrays written through [m] and [r], and the position of [r] in the
    output array. *)
Record refill_vars : Type := mk_vars {
  v_a : Z;
  v_b : Z;
  v_mm : list Z;
  v_r : list Z;
  v_rpos : Z
}.

Definition set_rpos (st : refill_vars) (p : Z) : refill_vars :=
  mk_vars (v_a st) (v_b st) (v_mm st) (v_r st) p.

(** [isaac_step (mix, a, b, mm, m, off, r)], where [mixf] is the macro
    argument [mix] as a function of the current [a], [m] is the index of the
    current word and [rofs] the offset added to [r]. *)
Definition isaac_step (mixf : Z -> Z) (off : Z) (m : Z) (rofs : Z)
    (st : refill_vars) : refill_vars :=
  let a := add32 (xor32 (v_a st) (mixf (v_a st))) (word_at (v_mm st) (m + off)) in
  let x := word_at (v_mm st) m in
  let y := wrap (ind (v_mm st) x + a + v_b st) in
  let mm := store_at (v_mm st) m y in
  let b := add32 (ind mm (shr32 y ISAAC_LOG)) x in
  let r := store_at (v_r st) (v_rpos st + rofs) b in
  mk_vars a b mm r (v_rpos st).

(** One iteration of either [do] loop: four steps, then [r += 4]. *)
Definition refill_body (off : Z) (m : Z) (st : refill_vars) : refill_vars :=
  let st := isaac_step (fun a => shl32 a 13) off m 0 st in
  let st := isaac_step (fun a => shr32 a 6) off (m + 1) 1 st in
  let st := isaac_step (fun a => shl32 a 2) off (m + 2) 2 st in
  let st := isaac_step (fun a => shr32 a 16) off (m + 3) 3 st in
  mk_vars (v_a st) (v_b st) (v_mm st) (v_r st) (v_rpos st + 4).

Definition refill_fuel : nat := Z.to_nat ISAAC_WORDS.

Definition isaac_refill (s : isaac_state) (r : list Z)
    : isaac_state * list Z :=
  let a := s_a s in
  let c := wrap (s_c s + 1) in
  let b := add32 (s_b s) c in
  let st := mk_vars a b (s_mm s) r 0 in
  let '(m, st) := do_while refill_fuel 0 (ISAAC_WORDS / 2) 4
                    (refill_body (ISAAC_WORDS / 2)) st in
  let '(_, st) := do_while refill_fuel m ISAAC_WORDS 4
                    (refill_body (- ISAAC_WORDS / 2)) st in
  (mk_isaac (v_mm st) (s_iv s) (v_a st) (v_b st) c, v_r st).

(** ** The seed-scrambling step *)

Definition acc8 : Type := (Z * Z * Z * Z * Z * Z * Z * Z)%type.

Definition mix (p : acc8) : acc8 :=
  let '(a, b, c, d, e, f, g, h) := p in
  let a := xor32 a (shl32 b 11) in let d := add32 d a in
  let b := add32 b c in let b := xor32 b (shr32 c 2) in let e := add32 e b in
  let c := add32 c d in let c := xor32 c (shl32 d 8) in let f := add32 f c in
  let d := add32 d e in let d := xor32 d (shr32 e 16) in let g := add32 g d in
  let e := add32 e f in let e := xor32 e (shl32 f 10) in let h := add32 h e in
  let f := add32 f g in let f := xor32 f (shr32 g 4) in let a := add32 a f in
  let g := add32 g h in let g := xor32 g (shl32 h 8) in let b := add32 b g in
  let h := add32 h a in let h := xor32 h (shr32 a 9) in let c := add32 c h in
  let a := add32 a b in
  (a, b, c, d, e, f, g, h).

(** ** The mixing pass as the design document words it

    Eight rounds over the accumulators [p0 .. p7]; round [k] does
    [pk ^= shift_k (p(k+1))], [p(k+3) += pk], [p(k+1) += p(k+2)], indices
    taken modulo 8, with the shift amounts 11, 2, 8, 16, 10, 4, 8, 9, to the
    left in even rounds and to the right in odd ones. *)

Definition mix_shifts : list Z := [11; 2; 8; 16; 10; 4; 8; 9].

Definition mix_round_spec (p : list Z) (k : nat) : list Z :=
  let nxt (j : nat) : nat := ((k + j) mod 8)%nat in
  let amount := mix_shifts !!! k in
  let src := p !!! nxt 1%nat in
  let shifted := if Nat.even k then shl32 src amount else shr32 src amount in
  let p := <[k := xor32 (p !!! k) shifted]> p in
  let p := <[nxt 3%nat := add32 (p !!! nxt 3%nat) (p !!! k)]> p in
  <[nxt 1%nat := add32 (p !!! nxt 1%nat) (p !!! nxt 2%nat)]> p.

Definition mix_spec (p : list Z) : list Z :=
  foldl mix_round_spec p (seq 0 8).

Definition acc8_to_list (p : acc8) : list Z :=
  let '(a, b, c, d, e, f, g, h) := p in [a; b; c; d; e; f; g; h].

(** Where the [seed] argument of [isaac_mix] points: at [s->mm] itself, as
    in every call of the live code, or at a separate buffer. *)
Inductive seed_ptr : Type :=
  | SeedState : seed_ptr
  | SeedBuffer : list Z -> seed_ptr.

Definition seed_words (seed : seed_ptr) (mm : list Z) : list Z :=
  match seed with
  | SeedState => mm
  | SeedBuffer buf => buf
  end.

(** Body of the [for] loop of [isaac_mix]; the loop state is the eight
    accumulators and [s->mm]. *)
Definition isaac_mix_body (seed : seed_ptr) (i : Z) (st : acc8 * list Z)
    : acc8 * list Z :=
  let '((a, b, c, d, e, f, g, h), mm) := st in
  let sd := seed_words seed mm in
  let a := add32 a (word_at sd i) in
  let b := add32 b (word_at sd (i + 1)) in
  let c := add32 c (word_at sd (i + 2)) in
  let d := add32 d (word_at sd (i + 3)) in
  let e := add32 e (word_at sd (i + 4)) in
  let f := add32 f (word_at sd (i + 5)) in
  let g := add32 g (word_at sd (i + 6)) in
  let h := add32 h (word_at sd (i + 7)) in
  let '(a, b, c, d, e, f, g, h) := mix (a, b, c, d, e, f, g, h) in
  let mm := store_at mm i a in
  let mm := store_at mm (i + 1) b in
  let mm := store_at mm (i + 2) c in
  let mm := store_at mm (i + 3) d in
  let mm := store_at mm (i + 4) e in
  let mm := store_at mm (i + 5) f in
  let mm := store_at mm (i + 6) g in
  let mm := store_at mm (i + 7) h in
  ((a, b, c, d, e, f, g, h), mm).

Definition load_iv (iv : list Z) : acc8 :=
  (word_at iv 0, word_at iv 1, word_at iv 2, word_at iv 3,
   word_at iv 4, word_at iv 5, word_at iv 6, word_at iv 7).

Definition store_iv (iv : list Z) (p : acc8) : list Z :=
  let '(a, b, c, d, e, f, g, h) := p in
  let iv := store_at iv 0 a in
  let iv := store_at iv 1 b in
  let iv := store_at iv 2 c in
  let iv := store_at iv 3 d in
  let iv := store_at iv 4 e in
  let iv := store_at iv 5 f in
  let iv := store_at iv 6 g in
  store_at iv 7 h.

Definition mix_fuel : nat := Z.to_nat ISAAC_WORDS.

Definition isaac_mix (s : isaac_state) (seed : seed_ptr) : isaac_state :=
  let '(p, mm) :=
    for_loop mix_fuel 0 ISAAC_WORDS 8 (isaac_mix_body seed)
      (load_iv (s_iv s), s_mm s) in
  mk_isaac mm (store_iv (s_iv s) p) (s_a s) (s_b s) (s_c s).

(** ** Seeding *)

Definition iv_init : list Z :=
  [ 0x1367df5a; 0x95d90059; 0xc3163e4b; 0x0f421ad8;
    0xd92a4a78; 0xa51a3c49; 0xc4efea1b; 0x30609119 ].

(** [for (i = 0; i < 8; i++) s->iv[i] = iv[i]] *)
Definition copy_iv (dst : list Z) : list Z :=
  for_loop 16 0 8 1 (fun i dst => store_at dst i (word_at iv_init i)) dst.

(** [memset (s->mm, 0, sizeof s->mm)]: the array has [ISAAC_WORDS] words,
    whatever it held before. *)
Definition zero_mm : list Z := replicate (Z.to_nat ISAAC_WORDS) 0.

Definition isaac_seed_start (s : isaac_state) : isaac_state :=
  mk_isaac zero_mm (copy_iv (s_iv s)) 0 0 0.

(** [s->c] is a write pointer into the bytes of [s->mm] while seeding.  Which
    byte of a word a byte offset names depends on the byte order of the
    platform, a parameter of the model. *)
Definition byte_shift (big_endian : bool) (k : Z) : Z :=
  8 * (if big_endian then 3 - k mod sizeof_uint32 else k mod sizeof_uint32).

(** [p[k] ^= v] on the bytes of an array of words. *)
Definition xor_byte_at (big_endian : bool) (mm : list Z) (k : Z) (v : byte)
    : list Z :=
  let w := k / sizeof_uint32 in
  store_at mm w
    (Z.lxor (word_at mm w)
       (Z.shiftl (Z.of_N (Byte.to_N v)) (byte_shift big_endian k))).

(** [for (i = 0; i < n; i++) p[i] ^= buf[i]] with [p] at byte offset [k] and
    [n] the number of bytes of [buf] handed over. *)
Fixpoint xor_bytes (big_endian : bool) (mm : list Z) (k : Z)
    (buf : list byte) : list Z :=
  match buf with
  | [] => mm
  | v :: rest => xor_bytes big_endian (xor_byte_at big_endian mm k v) (k + 1) rest
  end.

(** Width of [size_t]; the seeding code only computes sizes up to
    [ISAAC_BYTES] plus the length of a buffer, far below any such width. *)
Definition size_modulus : Z := 2 ^ 64.

Definition buf_size (buf : list byte) : Z := Z.of_nat (length buf).

(** The loop [while (size > avail)] of [isaac_seed_data]: the loop state is
    the generator, the unread part of the buffer and [avail]. *)
Fixpoint seed_full_blocks (fuel : nat) (big_endian : bool) (s : isaac_state)
    (buf : list byte) (avail : Z) : isaac_state * list byte :=
  match fuel with
  | O => (s, buf)
  | S fuel' =>
      if avail <? buf_size buf
      then
        let mm := xor_bytes big_endian (s_mm s) (s_c s)
                    (take (Z.to_nat avail) buf) in
        let buf := drop (Z.to_nat avail) buf in
        let s := isaac_mix (set_mm s mm) SeedState in
        let s := set_c s 0 in
        seed_full_blocks fuel' big_endian s buf ISAAC_BYTES
      else (s, buf)
  end.

Definition isaac_seed_data (big_endian : bool) (s : isaac_state)
    (buf : list byte) : isaac_state :=
  let avail := (ISAAC_BYTES - s_c s) mod size_modulus in
  let '(s, buf) :=
    seed_full_blocks (S (length buf)) big_endian s buf avail in
  let mm := xor_bytes big_endian (s_mm s) (s_c s) buf in
  set_c (set_mm s mm) (wrap (buf_size buf)).

Definition isaac_seed_finish (s : isaac_state) : isaac_state :=
  let s := isaac_mix s SeedState in
  let s := isaac_mix s SeedState in
  set_c s 0.

(** Seeding with a list of buffers, one [isaac_seed_data] call each. *)
Definition seed_pieces (big_endian : bool) (s : isaac_state)
    (pieces : list (list byte)) : isaac_state :=
  foldl (isaac_seed_data big_endian) s pieces.

(** ** Single-word RNG built on top of ISAAC *)

(** [r_s] holds the generator that the pointer [s] of the C structure
    designates; the model therefore describes one stream per generator. *)
Record irand_state : Type := mk_irand {
  r_r : list Z;       (* uint32_t r[ISAAC_WORDS] *)
  r_numleft : Z;      (* unsigned int numleft *)
  r_s : isaac_state
}.

Definition irand_init (r : irand_state) (s : isaac_state) : irand_state :=
  mk_irand (r_r r) 0 s.

Definition irand32 (r : irand_state) : Z * irand_state :=
  let r :=
    if r_numleft r =? 0
    then
      let '(s, out) := isaac_refill (r_s r) (r_r r) in
      mk_irand out ISAAC_WORDS s
    else r in
  let numleft := wrap (r_numleft r - 1) in
  (word_at (r_r r) numleft, mk_irand (r_r r) numleft (r_s r)).

(** The threshold [-n % n] of [irand_mod], for the incremented [n]. *)
Definition irand_lim (n : Z) : Z := neg32 n mod n.

(** The loop [do x = irand32 (r); while (x < lim)].  Nothing bounds the
    number of draws in the source, so the model takes a bound and answers
    [None] when it is reached. *)
Fixpoint irand_draw (fuel : nat) (lim : Z) (r : irand_state)
    : option (Z * irand_state) :=
  match fuel with
  | O => None
  | S fuel' =>
      let '(x, r) := irand32 r in
      if x <? lim then irand_draw fuel' lim r else Some (x, r)
  end.

Definition irand_mod (fuel : nat) (r : irand_state) (n : Z)
    : option (Z * irand_state) :=
  let n := wrap (n + 1) in
  if n =? 0
  then Some (irand32 r)
  else
    let lim := irand_lim n in
    match irand_draw fuel lim r with
    | Some (x, r) => Some (x mod n, r)
    | None => None
    end.

(** ** Derived notions used in the statements *)

(** Shape of the C structures: array sizes and word ranges. *)
Definition isaac_wf (s : isaac_state) : bool :=
  (length (s_mm s) =? Z.to_nat ISAAC_WORDS)%nat
  && (length (s_iv s) =? 8)%nat
  && all_words (s_mm s) && all_words (s_iv s)
  && is_word (s_a s) && is_word (s_b s) && is_word (s_c s).

Definition irand_wf (r : irand_state) : bool :=
  (length (r_r r) =? Z.to_nat ISAAC_WORDS)%nat
  && all_words (r_r r)
  && (0 <=? r_numleft r) && (r_numleft r <=? ISAAC_WORDS)
  && isaac_wf (r_s r).

(** The stream after [k] calls of [irand32], and the word that call number
    [k] (counting from 0) returns. *)
Fixpoint irand32_iter (k : nat) (r : irand_state) : irand_state :=
  match k with
  | O => r
  | S k' => snd (irand32 (irand32_iter k' r))
  end.

Definition irand32_nth (k : nat) (r : irand_state) : Z :=
  fst (irand32 (irand32_iter k r)).

(** Whether [irand_mod], called with [n], throws the drawn word [x] away. *)
Definition sampler_rejects (n : Z) (x : Z) : bool :=
  let n := wrap (n + 1) in
  if n =? 0 then false else x <? irand_lim n.

(** Number of 32-bit words that [irand_mod n] throws away. *)
Definition count_rejected (n : Z) : Z :=
  Z.of_nat (length (List.filter (sampler_rejects n) (seqZ 0 modulus))).

(** The first [k] steps of a refill, numbered as the two loops run them:
    step [i] works on word [i], mixes with the [i mod 4]-th shift and reads
    the word half an array away. *)
Definition step_mix (i : nat) (a : Z) : Z :=
  match (i mod 4)%nat with
  | 0%nat => shl32 a 13
  | 1%nat => shr32 a 6
  | 2%nat => shl32 a 2
  | _ => shr32 a 16
  end.

Definition step_off (i : nat) : Z :=
  if Z.of_nat i <? ISAAC_WORDS / 2 then ISAAC_WORDS / 2 else - ISAAC_WORDS / 2.

Definition step_nth (i : nat) (st : refill_vars) : refill_vars :=
  isaac_step (step_mix i) (step_off i) (Z.of_nat i)
    (Z.of_nat i - v_rpos st) st.

Fixpoint refill_prefix (k : nat) (st : refill_vars) : refill_vars :=
  match k with
  | O => st
  | S k' => step_nth k' (refill_prefix k' st)
  end.

(** Local variables of [isaac_refill] on entry to the first loop. *)
Definition refill_entry (s : isaac_state) (r : list Z) : refill_vars :=
  mk_vars (s_a s) (add32 (s_b s) (wrap (s_c s + 1))) (s_mm s) r 0.

(** Iterating a loop body [n] times from index [m]: what both kinds of
    counted loop compute once their guard is resolved. *)
Fixpoint loop_iter {St : Type} (n : nat) (m step : Z)
    (body : Z -> St -> St) (st : St) : St :=
  match n with
  | O => st
  | S n' => loop_iter n' (m + step) step body (body m st)
  end.

(** One full pass of [isaac_mix] written on the list of words: the
    accumulators absorb eight words, are mixed, and are the next eight words
    of the result. *)
Fixpoint mix_chain (p : acc8) (l : list Z) : acc8 * list Z :=
  match l with
  | x0 :: x1 :: x2 :: x3 :: x4 :: x5 :: x6 :: x7 :: rest =>
      let '(a, b, c, d, e, f, g, h) := p in
      let p' := mix (add32 a x0, add32 b x1, add32 c x2, add32 d x3,
                     add32 e x4, add32 f x5, add32 g x6, add32 h x7) in
      let '(q, out) := mix_chain p' rest in
      (q, acc8_to_list p' ++ out)
  | _ => (p, [])
  end.

(** ** Sample data for the examples *)

(** An array whose word number [i] is [i]. *)
Definition ramp : list Z := seqZ 0 ISAAC_WORDS.

(** A structure as the caller may hand it over: arbitrary contents. *)
Definition stale_state : isaac_state :=
  mk_isaac (replicate 256 0xdeadbeef) (replicate 8 0xdeadbeef) 1 2 3.

(** The generator right after [isaac_seed_start], nothing accumulated. *)
Definition fresh_state : isaac_state := isaac_seed_start stale_state.

(** The generator seeded with no data at all. *)
Definition seeded_state : isaac_state := isaac_seed_finish fresh_state.

(** A stream just initialised on it; its block is still unused memory. *)
Definition fresh_stream : irand_state :=
  irand_init (mk_irand (replicate 256 0) 0 stale_state) seeded_state.

(** ** Getting seed material

    [isaac_seed] asks the system for five values and for the bytes of a
    random device; the model takes what the system answered as an argument.
    [ISAAC_SEED (s, x)] hands over the bytes of [x] as they lie in memory. *)

(** What [isaac_seed] obtains from the system: the bytes of the values of
    [getpid], [getppid], [getuid], [getgid] and [gethrxtime], and the
    contents of the array [char buf[32]] after the read from /dev/urandom
    when that device could be opened ([e_urandom]), or after the read from
    /dev/random when only that one could be opened ([e_random]).  [None]
    stands for a device that could not be opened. *)
Record entropy : Type := mk_entropy {
  e_pid : list byte;
  e_ppid : list byte;
  e_uid : list byte;
  e_gid : list byte;
  e_time : list byte;
  e_urandom : option (list byte);
  e_random : option (list byte)
}.

(** The block of [isaac_seed] that reads a device: 32 bytes of [buf] go to
    [isaac_seed_data] after /dev/urandom, 16 after /dev/random, however
    many bytes the read delivered; without a device nothing is added. *)
Definition seed_device (big_endian : bool) (s : isaac_state) (env : entropy)
    : isaac_state :=
  match e_urandom env with
  | Some buf => isaac_seed_data big_endian s (take 32 buf)
  | None =>
      match e_random env with
      | Some buf => isaac_seed_data big_endian s (take 16 buf)
      | None => s
      end
  end.

Definition isaac_seed (big_endian : bool) (s : isaac_state) (env : entropy)
    : isaac_state :=
  let s := isaac_seed_start s in
  let s := isaac_seed_data big_endian s (e_pid env) in
  let s := isaac_seed_data big_endian s (e_ppid env) in
  let s := isaac_seed_data big_endian s (e_uid env) in
  let s := isaac_seed_data big_endian s (e_gid env) in
  let s := isaac_seed_data big_endian s (e_time env) in
  let s := seed_device big_endian s env in
  isaac_seed_finish s.

(** ** Further notions used in the statements *)

Definition in_word (x : Z) : Prop := 0 <= x < modulus.

Definition acc8_words (p : acc8) : Prop :=
  let '(a, b, c, d, e, f, g, h) := p in
  in_word a /\ in_word b /\ in_word c /\ in_word d
  /\ in_word e /\ in_word f /\ in_word g /\ in_word h.

(** One round of [mix] on the accumulators, rotated by one place. *)
Definition mix_step (shift : Z -> Z) (p : acc8) : acc8 :=
  let '(a, b, c, d, e, f, g, h) := p in
  let a := xor32 a (shift b) in
  let d := add32 d a in
  let b := add32 b c in
  (b, c, d, e, f, g, h, a).

(** The state handed from one full block to the next. *)
Definition seed_block (big_endian : bool) (s : isaac_state)
    (chunk : list byte) : isaac_state :=
  set_c (isaac_mix (set_mm s (xor_bytes big_endian (s_mm s) (s_c s) chunk))
           SeedState) 0.

(** Seeding from a write pointer at 0, as [isaac_seed_data] does it but
    with the bound on the loop left open. *)
Definition seed_from_start (big_endian : bool) (fuel : nat)
    (s : isaac_state) (buf : list byte) : isaac_state :=
  let res := seed_full_blocks fuel big_endian s buf ISAAC_BYTES in
  set_c (set_mm (fst res)
           (xor_bytes big_endian (s_mm (fst res)) (s_c (fst res)) (snd res)))
    (wrap (buf_size (snd res))).

(** The bytes handed over from the device, if any. *)
Definition device_bytes (env : entropy) : list byte :=
  match e_urandom env with
  | Some buf => take 32 buf
  | None =>
      match e_random env with
      | Some buf => take 16 buf
      | None => []
      end
  end.

Definition has_device (env : entropy) : bool :=
  match e_urandom env, e_random env with
  | None, None => false
  | _, _ => true
  end.

Definition swap_uid_gid (env : entropy) : entropy :=
  mk_entropy (e_pid env) (e_ppid env) (e_gid env) (e_uid env) (e_time env)
    (e_urandom env) (e_random env).

Definition swap_ppid_uid (env : entropy) : entropy :=
  mk_entropy (e_pid env) (e_uid env) (e_ppid env) (e_gid env) (e_time env)
    (e_urandom env) (e_random env).

(** The environment with the user and group ids replaced. *)
Definition with_uid_gid (env : entropy) (uid gid : list byte) : entropy :=
  mk_entropy (e_pid env) (e_ppid env) uid gid (e_time env)
    (e_urandom env) (e_random env).

(** Where a run of buffers that each fit ends up: every buffer is folded in
    at the offset that the size of the buffer before it names. *)
Fixpoint seed_layout (big_endian : bool) (mm : list Z) (k : Z)
    (pieces : list (list byte)) : list Z :=
  match pieces with
  | [] => mm
  | p :: ps => seed_layout big_endian (xor_bytes big_endian mm k p) (buf_size p) ps
  end.

Fixpoint seed_cursor (k : Z) (pieces : list (list byte)) : Z :=
  match pieces with
  | [] => k
  | p :: ps => seed_cursor (buf_size p) ps
  end.

Fixpoint pieces_fit (k : Z) (pieces : list (list byte)) : bool :=
  match pieces with
  | [] => true
  | p :: ps => (buf_size p <=? ISAAC_BYTES - k) && pieces_fit (buf_size p) ps
  end.

(** Block number [j] (from 0) of a generator: the state and the output of
    refill number [j + 1], each refill starting from the state and the
    block that the one before left. *)
Fixpoint refill_block (j : nat) (s : isaac_state) (out : list Z)
    : isaac_state * list Z :=
  match j with
  | O => isaac_refill s out
  | S j' =>
      let '(s', out') := refill_block j' s out in
      isaac_refill s' out'
  end.

(** Two streams agree when they have as many words left, the same words
    in their blocks unless none is left, and generators with the same
    [mm], [a], [b] and [c]. *)
Definition streams_agree (ra rb : irand_state) : Prop :=
  r_numleft ra = r_numleft rb
  /\ 0 <= r_numleft ra <= 256
  /\ length (r_r ra) = 256%nat /\ length (r_r rb) = 256%nat
  /\ (r_numleft ra <> 0 -> r_r ra = r_r rb)
  /\ s_mm (r_s ra) = s_mm (r_s rb) /\ s_a (r_s ra) = s_a (r_s rb)
  /\ s_b (r_s ra) = s_b (r_s rb) /\ s_c (r_s ra) = s_c (r_s rb).

(** What [irand_mod], called with [n], returns for an accepted word [x]. *)
Definition sampler_value (n : Z) (x : Z) : Z :=
  let n := wrap (n + 1) in
  if n =? 0 then x else x mod n.


(** ** More sample data *)

(** An environment with four-byte identifiers, an eight-byte time stamp
    and 32 bytes from /dev/urandom. *)
Definition sample_entropy : entropy :=
  mk_entropy [x39; x30; x00; x00] [x01; x00; x00; x00]
    [xe8; x03; x00; x00] [x64; x00; x00; x00]
    [x11; x22; x33; x44; x55; x66; x77; x88]
    (Some (replicate 32 xc3)) None.
(** * Properties *)

(** ** Words and arrays *)

Lemma fst_pair {A B : Type} (x : A) (y : B) : fst (x, y) = x.
Proof. reflexivity. Qed.

Lemma snd_pair {A B : Type} (x : A) (y : B) : snd (x, y) = y.
Proof. reflexivity. Qed.

Lemma some_eq {A : Type} (x y : A) : Some x = Some y -> x = y.
Proof. intros H. now injection H. Qed.

Lemma pair_eq {A B : Type} (x x' : A) (y y' : B) :
  (x, y) = (x', y') -> x = x' /\ y = y'.
Proof. intros H. now injection H. Qed.

Lemma modulus_pos : 0 < modulus.
Proof. reflexivity. Qed.

Lemma wrap_range (x : Z) : 0 <= wrap x < modulus.
Proof. unfold wrap. apply Z.mod_pos_bound, modulus_pos. Qed.

Lemma wrap_small (x : Z) : 0 <= x < modulus -> wrap x = x.
Proof. intros H. unfold wrap. now apply Z.mod_small. Qed.

Lemma is_word_spec (x : Z) : is_word x = true <-> 0 <= x < modulus.
Proof. unfold is_word. rewrite andb_true_iff, Z.leb_le, Z.ltb_lt. tauto. Qed.

Lemma is_word_wrap (x : Z) : is_word (wrap x) = true.
Proof. apply is_word_spec, wrap_range. Qed.

Lemma length_store_at (arr : list Z) (i v : Z) :
  length (store_at arr i v) = length arr.
Proof. unfold store_at. apply length_insert. Qed.

Lemma word_at_store_at_eq (arr : list Z) (i v : Z) :
  (Z.to_nat i < length arr)%nat -> word_at (store_at arr i v) i = v.
Proof.
  intros H. unfold word_at, store_at.
  now apply list_lookup_total_insert_eq.
Qed.

Lemma word_at_store_at_ne (arr : list Z) (i j v : Z) :
  Z.to_nat i <> Z.to_nat j -> word_at (store_at arr i v) j = word_at arr j.
Proof.
  intros H. unfold word_at, store_at.
  now apply list_lookup_total_insert_ne.
Qed.

Lemma word_at_app (pre l : list Z) (j : Z) :
  0 <= j ->
  word_at (pre ++ l) (Z.of_nat (length pre) + j) = l !!! Z.to_nat j.
Proof.
  intros Hj. unfold word_at.
  rewrite lookup_total_app_r by lia.
  f_equal. lia.
Qed.

Lemma store_at_app (pre l : list Z) (j v : Z) :
  0 <= j ->
  store_at (pre ++ l) (Z.of_nat (length pre) + j) v
  = pre ++ <[Z.to_nat j := v]> l.
Proof.
  intros Hj. unfold store_at.
  rewrite insert_app_r_alt by lia.
  do 2 f_equal. lia.
Qed.

(** ** Counted loops leave through their guard *)

Lemma for_loop_iter {St : Type} (body : Z -> St -> St) (step bound : Z) :
  0 < step ->
  forall (n fuel : nat) (i : Z) (st : St),
    (n < fuel)%nat ->
    i + Z.of_nat n * step >= bound ->
    (n = O \/ i + (Z.of_nat n - 1) * step < bound) ->
    for_loop fuel i bound step body st = loop_iter n i step body st.
Proof.
  intros Hstep n. induction n as [|n IH]; intros fuel i st Hfuel Hge Hlt.
  - destruct fuel as [|fuel]; [lia|]. simpl.
    destruct (i <? bound) eqn:E; [apply Z.ltb_lt in E; lia | reflexivity].
  - destruct fuel as [|fuel]; [lia|]. simpl.
    destruct (i <? bound) eqn:E.
    + apply IH; [lia | lia |].
      destruct n as [|n]; [now left | right; lia].
    + apply Z.ltb_ge in E. destruct Hlt as [Hlt | Hlt]; [discriminate | nia].
Qed.

Lemma do_while_iter {St : Type} (body : Z -> St -> St) (step bound : Z) :
  0 < step ->
  forall (n fuel : nat) (m : Z) (st : St),
    (n < fuel)%nat ->
    m + (Z.of_nat n + 1) * step >= bound ->
    m + Z.of_nat n * step < bound ->
    do_while fuel m bound step body st
    = (m + (Z.of_nat n + 1) * step, loop_iter (S n) m step body st).
Proof.
  intros Hstep n. induction n as [|n IH]; intros fuel m st Hfuel Hge Hlt.
  - destruct fuel as [|fuel]; [lia|]. cbn [do_while loop_iter].
    destruct (m + step <? bound) eqn:E; [apply Z.ltb_lt in E; lia|].
    f_equal. cbn [Z.of_nat]. lia.
  - destruct fuel as [|fuel]; [lia|].
    change (do_while (S fuel) m bound step body st)
      with (if m + step <? bound
            then do_while fuel (m + step) bound step body (body m st)
            else (m + step, body m st)).
    destruct (m + step <? bound) eqn:E.
    + rewrite IH by lia. f_equal. lia.
    + apply Z.ltb_ge in E. nia.
Qed.

(** ** The index operation *)

Lemma ind_offset_word (x : Z) :
  ind_offset x = 4 * ((x / 4) mod 256).
Proof.
  unfold ind_offset.
  change ((ISAAC_WORDS - 1) * sizeof_uint32) with (Z.shiftl (Z.ones 8) 2).
  change 256 with (2 ^ 8). change 4 with (2 ^ 2).
  rewrite <- Z.land_ones, <- Z.shiftr_div_pow2, Z.mul_comm,
    <- Z.shiftl_mul_pow2 by lia.
  apply Z.bits_inj'. intros n Hn.
  rewrite Z.land_spec.
  destruct (Z.lt_ge_cases n 2) as [Hlt | Hge].
  - rewrite !Z.shiftl_spec_low by lia. apply andb_false_r.
  - rewrite !Z.shiftl_spec by lia.
    rewrite Z.land_spec, Z.shiftr_spec by lia.
    do 2 f_equal. lia.
Qed.

Lemma ind_offset_range (x : Z) :
  0 <= ind_offset x / sizeof_uint32 < ISAAC_WORDS.
Proof.
  rewrite ind_offset_word. unfold sizeof_uint32.
  rewrite Z.mul_comm, Z.div_mul by lia.
  change ISAAC_WORDS with 256. apply Z.mod_pos_bound. lia.
Qed.

(** The pointer that [ind] dereferences is aligned on a word. *)
Lemma ind_offset_aligned (x : Z) : ind_offset x mod sizeof_uint32 = 0.
Proof.
  rewrite ind_offset_word. unfold sizeof_uint32.
  rewrite Z.mul_comm. apply Z.mod_mul. lia.
Qed.

Lemma ind_word (mm : list Z) (x : Z) :
  ind mm x = word_at mm ((x / 4) mod 256).
Proof.
  unfold ind, load32. rewrite ind_offset_word. unfold sizeof_uint32.
  f_equal. rewrite Z.mul_comm. apply Z.div_mul. lia.
Qed.

(** C2, as stated, fails: with [mm[i] = i], [ind (mm, 1)] is [mm[0]], not
    the word [mm[1]] that the low 8 bits of 1 name. *)
Lemma ind_low_bits_counterexample :
  ind ramp 1 <> word_at ramp (1 mod 256).
Proof. vm_compute. discriminate. Qed.

(** C2 (amended): every indirect lookup [ind (mm, v)] returns the word of
    [mm] whose index is made of bits 2 to 9 of [v], that is
    [mm[(v / 4) mod 256]], an index that always lies in [[0, 255]]; in the
    central step the first lookup therefore reads [mm[(x / 4) mod 256]] and
    the second one, applied to [y >> 8], reads [mm[(y / 1024) mod 256]]. *)
Theorem ind_selects_bits_2_to_9 (mm : list Z) (v : Z) :
  ind mm v = word_at mm ((v / 4) mod 256)
  /\ 0 <= (v / 4) mod 256 < 256
  /\ ind mm (shr32 v ISAAC_LOG) = word_at mm ((v / 1024) mod 256)
  /\ forall (mixf : Z -> Z) (off m rofs : Z) (st : refill_vars),
       isaac_step mixf off m rofs st
       = let a := add32 (xor32 (v_a st) (mixf (v_a st)))
                    (word_at (v_mm st) (m + off)) in
         let x := word_at (v_mm st) m in
         let y := wrap (word_at (v_mm st) ((x / 4) mod 256) + a + v_b st) in
         let mm' := store_at (v_mm st) m y in
         let b := add32 (word_at mm' ((y / 1024) mod 256)) x in
         mk_vars a b mm' (store_at (v_r st) (v_rpos st + rofs) b) (v_rpos st).
Proof.
  assert (Hshift : forall y, shr32 y ISAAC_LOG / 4 = y / 1024).
  { intros y. unfold shr32, ISAAC_LOG.
    rewrite Z.shiftr_div_pow2 by lia.
    rewrite Z.div_div by lia. reflexivity. }
  split; [apply ind_word|].
  split; [apply Z.mod_pos_bound; lia|].
  split.
  - rewrite ind_word, Hshift. reflexivity.
  - intros mixf off m rofs st. unfold isaac_step.
    cbv zeta. rewrite !ind_word, Hshift. reflexivity.
Qed.

(** ** Start of seeding *)

Lemma word_at_zero_mm (i : Z) : 0 <= i < ISAAC_WORDS -> word_at zero_mm i = 0.
Proof.
  intros Hi. unfold word_at, zero_mm.
  apply lookup_total_replicate_2. lia.
Qed.

(** C6: after [isaac_seed_start] the main array has its 256 words equal to
    0, [a], [b] and [c] are 0, and [iv] holds the eight fixed constants in
    order. *)
Theorem isaac_seed_start_state (s : isaac_state) :
  length (s_iv s) = 8%nat ->
  let s' := isaac_seed_start s in
  length (s_mm s') = 256%nat
  /\ (forall i, 0 <= i < 256 -> word_at (s_mm s') i = 0)
  /\ s_a s' = 0 /\ s_b s' = 0 /\ s_c s' = 0
  /\ s_iv s' = [ 0x1367df5a; 0x95d90059; 0xc3163e4b; 0x0f421ad8;
                 0xd92a4a78; 0xa51a3c49; 0xc4efea1b; 0x30609119 ].
Proof.
  intros Hlen s'. subst s'. unfold isaac_seed_start. cbn [s_mm s_iv s_a s_b s_c].
  split; [reflexivity|].
  split; [intros i Hi; now apply word_at_zero_mm|].
  do 3 (split; [reflexivity|]).
  destruct (s_iv s) as [|x0 [|x1 [|x2 [|x3 [|x4 [|x5 [|x6 [|x7 [|x8 l]]]]]]]]];
    try discriminate Hlen.
  reflexivity.
Qed.

Lemma isaac_seed_start_state_witness :
  length (s_iv stale_state) = 8%nat
  /\ s_c (isaac_seed_start stale_state) = 0
  /\ s_iv (isaac_seed_start stale_state)
     = [ 0x1367df5a; 0x95d90059; 0xc3163e4b; 0x0f421ad8;
         0xd92a4a78; 0xa51a3c49; 0xc4efea1b; 0x30609119 ].
Proof.
  split; [reflexivity|].
  destruct (isaac_seed_start_state stale_state) as (_ & _ & _ & _ & Hc & Hiv);
    [reflexivity|].
  split; [exact Hc | exact Hiv].
Defined.

(** The constants are the golden ratio scrambled by four mixing passes, as
    the comment next to them says. *)
Lemma iv_init_golden :
  let g := 0x9e3779b9 in
  acc8_to_list (mix (mix (mix (mix (g, g, g, g, g, g, g, g))))) = iv_init.
Proof. vm_compute. reflexivity. Qed.

(** ** The mixing pass *)

(** C8: the macro [mix] is a function of its eight accumulators alone and
    carries out the eight rounds of the design document in order, round [k]
    being [pk ^= shift (p(k+1))], [p(k+3) += pk], [p(k+1) += p(k+2)] with
    the shift amounts 11, 2, 8, 16, 10, 4, 8, 9, left in even rounds and
    right in odd ones; the first round starts with [p0 ^= p1 << 11] and the
    last one ends with [p0 += p1]. *)
Theorem mix_follows_rounds (a b c d e f g h : Z) :
  acc8_to_list (mix (a, b, c, d, e, f, g, h))
  = mix_spec [a; b; c; d; e; f; g; h]
  /\ mix_round_spec [a; b; c; d; e; f; g; h] 0
     = [ xor32 a (shl32 b 11); add32 b c; c;
         add32 d (xor32 a (shl32 b 11)); e; f; g; h ]
  /\ mix_round_spec [a; b; c; d; e; f; g; h] 1
     = [ a; xor32 b (shr32 c 2); add32 c d; d;
         add32 e (xor32 b (shr32 c 2)); f; g; h ]
  /\ mix_round_spec [a; b; c; d; e; f; g; h] 7
     = [ add32 a b; b; add32 c (xor32 h (shr32 a 9)); d; e; f; g;
         xor32 h (shr32 a 9) ].
Proof.
  repeat apply conj; cbv -[add32 xor32 shl32 shr32]; reflexivity.
Qed.

(** ** The full mixing pass over the main array *)

Lemma word_at_app_at (pre l : list Z) (i : Z) (j : nat) :
  i = Z.of_nat (length pre) + Z.of_nat j ->
  word_at (pre ++ l) i = l !!! j.
Proof.
  intros ->. rewrite word_at_app by lia. f_equal. lia.
Qed.

Lemma store_at_app_at (pre l : list Z) (i v : Z) (j : nat) :
  i = Z.of_nat (length pre) + Z.of_nat j ->
  store_at (pre ++ l) i v = pre ++ <[j := v]> l.
Proof.
  intros ->. rewrite store_at_app by lia. do 2 f_equal. lia.
Qed.

Lemma isaac_mix_body_app (pre rest : list Z) (p : acc8)
    (x0 x1 x2 x3 x4 x5 x6 x7 : Z) :
  isaac_mix_body SeedState (Z.of_nat (length pre))
    (p, pre ++ x0 :: x1 :: x2 :: x3 :: x4 :: x5 :: x6 :: x7 :: rest)
  = let '(a, b, c, d, e, f, g, h) := p in
    let p' := mix (add32 a x0, add32 b x1, add32 c x2, add32 d x3,
                   add32 e x4, add32 f x5, add32 g x6, add32 h x7) in
    (p', pre ++ acc8_to_list p' ++ rest).
Proof.
  destruct p as [[[[[[[a b] c] d] e] f] g] h].
  unfold isaac_mix_body. cbn [seed_words].
  rewrite (word_at_app_at pre _ _ 0), (word_at_app_at pre _ _ 1),
    (word_at_app_at pre _ _ 2), (word_at_app_at pre _ _ 3),
    (word_at_app_at pre _ _ 4), (word_at_app_at pre _ _ 5),
    (word_at_app_at pre _ _ 6), (word_at_app_at pre _ _ 7) by lia.
  cbn [lookup_total list_lookup_total].
  destruct (mix _) as [[[[[[[a' b'] c'] d'] e'] f'] g'] h'].
  rewrite (store_at_app_at pre _ _ _ 0) by lia.
  rewrite (store_at_app_at pre _ _ _ 1) by lia.
  rewrite (store_at_app_at pre _ _ _ 2) by lia.
  rewrite (store_at_app_at pre _ _ _ 3) by lia.
  rewrite (store_at_app_at pre _ _ _ 4) by lia.
  rewrite (store_at_app_at pre _ _ _ 5) by lia.
  rewrite (store_at_app_at pre _ _ _ 6) by lia.
  rewrite (store_at_app_at pre _ _ _ 7) by lia.
  reflexivity.
Qed.

Lemma mix_chain_length (n : nat) :
  forall (p : acc8) (l : list Z),
    length l = (8 * n)%nat -> length (snd (mix_chain p l)) = length l.
Proof.
  induction n as [|n IH]; intros p l Hlen.
  - destruct l; [reflexivity | discriminate].
  - destruct l as [|x0 [|x1 [|x2 [|x3 [|x4 [|x5 [|x6 [|x7 rest]]]]]]]];
      try (simpl in Hlen; lia).
    destruct p as [[[[[[[a b] c] d] e] f] g] h].
    cbn [mix_chain].
    destruct (mix _) as [[[[[[[a' b'] c'] d'] e'] f'] g'] h'] eqn:Emix.
    specialize (IH (a', b', c', d', e', f', g', h') rest).
    destruct (mix_chain _ rest) as [q out].
    cbn [snd] in *. cbn [acc8_to_list]. rewrite length_app.
    cbn [length] in *. rewrite IH by lia. lia.
Qed.

Lemma isaac_mix_loop_chain (n : nat) :
  forall (pre rest : list Z) (p : acc8),
    length rest = (8 * n)%nat ->
    loop_iter n (Z.of_nat (length pre)) 8 (isaac_mix_body SeedState)
      (p, pre ++ rest)
    = (fst (mix_chain p rest), pre ++ snd (mix_chain p rest)).
Proof.
  induction n as [|n IH]; intros pre rest p Hlen.
  - destruct rest; [reflexivity | discriminate].
  - destruct rest as [|x0 [|x1 [|x2 [|x3 [|x4 [|x5 [|x6 [|x7 rest]]]]]]]];
      try (simpl in Hlen; lia).
    cbn [loop_iter]. rewrite isaac_mix_body_app.
    destruct p as [[[[[[[a b] c] d] e] f] g] h].
    cbn [mix_chain]. cbv zeta.
    destruct (mix _) as [[[[[[[a' b'] c'] d'] e'] f'] g'] h'].
    set (l8 := acc8_to_list (a', b', c', d', e', f', g', h')).
    rewrite (app_assoc pre l8 rest).
    replace (Z.of_nat (length pre) + 8) with (Z.of_nat (length (pre ++ l8)))
      by (rewrite length_app; subst l8; cbn [acc8_to_list length]; lia).
    rewrite IH by (cbn [length] in Hlen; lia).
    destruct (mix_chain _ rest) as [q out]. cbn [fst snd].
    now rewrite <- app_assoc.
Qed.

Lemma store_iv_full (iv : list Z) (p : acc8) :
  length iv = 8%nat -> store_iv iv p = acc8_to_list p.
Proof.
  intros Hlen.
  destruct iv as [|x0 [|x1 [|x2 [|x3 [|x4 [|x5 [|x6 [|x7 [|x8 l]]]]]]]]];
    try discriminate Hlen.
  destruct p as [[[[[[[a b] c] d] e] f] g] h]. reflexivity.
Qed.

(** One call [isaac_mix (s, s->mm)] is one chained pass over the 32 groups
    of eight words: reading the seed through [s->mm] while writing [s->mm]
    does no harm, since a group is read before it is overwritten. *)
Lemma isaac_mix_chain (s : isaac_state) :
  length (s_mm s) = 256%nat ->
  length (s_iv s) = 8%nat ->
  isaac_mix s SeedState
  = mk_isaac (snd (mix_chain (load_iv (s_iv s)) (s_mm s)))
      (acc8_to_list (fst (mix_chain (load_iv (s_iv s)) (s_mm s))))
      (s_a s) (s_b s) (s_c s).
Proof.
  intros Hmm Hiv. unfold isaac_mix.
  rewrite (for_loop_iter _ 8 ISAAC_WORDS ltac:(lia) 32 mix_fuel 0)
    by (first [ right; reflexivity | unfold mix_fuel; change (Z.to_nat ISAAC_WORDS) with 256%nat; lia
              | change ISAAC_WORDS with 256; lia ]).
  pose proof (isaac_mix_loop_chain 32 [] (s_mm s) (load_iv (s_iv s)) Hmm) as H.
  change (Z.of_nat (length (@nil Z))) with 0 in H.
  change ([] ++ s_mm s) with (s_mm s) in H.
  rewrite H. cbn [app]. rewrite store_iv_full by assumption. reflexivity.
Qed.

Lemma load_iv_acc8 (p : acc8) : load_iv (acc8_to_list p) = p.
Proof. destruct p as [[[[[[[a b] c] d] e] f] g] h]. reflexivity. Qed.

Lemma length_acc8_to_list (p : acc8) : length (acc8_to_list p) = 8%nat.
Proof. destruct p as [[[[[[[a b] c] d] e] f] g] h]. reflexivity. Qed.

(** ** Accumulating seed material *)

Lemma seed_full_blocks_stop (fuel : nat) (big_endian : bool)
    (s : isaac_state) (buf : list byte) (avail : Z) :
  buf_size buf <= avail ->
  seed_full_blocks fuel big_endian s buf avail = (s, buf).
Proof.
  intros H. destruct fuel as [|fuel]; [reflexivity|].
  cbn [seed_full_blocks].
  destruct (avail <? buf_size buf) eqn:E; [apply Z.ltb_lt in E; lia|].
  reflexivity.
Qed.

Lemma seed_full_blocks_step (fuel : nat) (big_endian : bool)
    (s : isaac_state) (buf : list byte) (avail : Z) :
  avail < buf_size buf ->
  seed_full_blocks (S fuel) big_endian s buf avail
  = seed_full_blocks fuel big_endian
      (set_c (isaac_mix
                (set_mm s (xor_bytes big_endian (s_mm s) (s_c s)
                             (take (Z.to_nat avail) buf)))
                SeedState) 0)
      (drop (Z.to_nat avail) buf) ISAAC_BYTES.
Proof.
  intros H. cbn [seed_full_blocks].
  destruct (avail <? buf_size buf) eqn:E; [reflexivity|].
  apply Z.ltb_ge in E. lia.
Qed.

(** The loop of [isaac_seed_data] leaves through its guard: what it hands
    to the final partial block fits in the space left. *)
Lemma seed_full_blocks_fits (big_endian : bool) (fuel : nat) :
  forall (s : isaac_state) (buf : list byte),
    (length buf <= fuel)%nat ->
    buf_size (snd (seed_full_blocks fuel big_endian s buf ISAAC_BYTES))
    <= ISAAC_BYTES.
Proof.
  induction fuel as [|fuel IH]; intros s buf Hlen.
  - destruct buf; [|cbn [length] in Hlen; lia]. cbn. discriminate.
  - destruct (Z.lt_ge_cases ISAAC_BYTES (buf_size buf)) as [Hlt | Hge].
    + rewrite seed_full_blocks_step by exact Hlt. apply IH.
      rewrite length_drop. unfold buf_size in Hlt.
      change ISAAC_BYTES with 1024 in *. lia.
    + rewrite seed_full_blocks_stop by exact Hge. exact Hge.
Qed.

Lemma seed_full_blocks_exit (big_endian : bool) (s : isaac_state)
    (buf : list byte) (avail : Z) :
  0 <= avail ->
  buf_size (snd (seed_full_blocks (S (length buf)) big_endian s buf avail))
  <= (if avail <? buf_size buf then ISAAC_BYTES else avail).
Proof.
  intros Havail. destruct (avail <? buf_size buf) eqn:E.
  - apply Z.ltb_lt in E. rewrite seed_full_blocks_step by exact E.
    apply seed_full_blocks_fits. rewrite length_drop. lia.
  - apply Z.ltb_ge in E. rewrite seed_full_blocks_stop by exact E. exact E.
Qed.

Lemma xor_bytes_app (big_endian : bool) (l1 l2 : list byte) :
  forall (mm : list Z) (k : Z),
    xor_bytes big_endian mm k (l1 ++ l2)
    = xor_bytes big_endian (xor_bytes big_endian mm k l1)
        (k + buf_size l1) l2.
Proof.
  induction l1 as [|v l1 IH]; intros mm k.
  - cbn [app xor_bytes]. unfold buf_size. cbn [length]. f_equal. lia.
  - cbn [app xor_bytes]. rewrite IH. f_equal. unfold buf_size.
    cbn [length]. lia.
Qed.

Lemma isaac_mix_set_c (s : isaac_state) (seed : seed_ptr) (c : Z) :
  isaac_mix (set_c s c) seed = set_c (isaac_mix s seed) c.
Proof.
  unfold isaac_mix, set_c. cbn [s_mm s_iv s_a s_b s_c].
  destruct (for_loop _ _ _ _ _ _) as [p mm]. reflexivity.
Qed.

Lemma set_mm_over (s : isaac_state) (mm1 mm2 : list Z) (c : Z) :
  set_mm (set_c (set_mm s mm1) c) mm2 = set_c (set_mm s mm2) c.
Proof. reflexivity. Qed.

Lemma set_c_twice (s : isaac_state) (c c' : Z) :
  set_c (set_c s c) c' = set_c s c'.
Proof. reflexivity. Qed.

Lemma s_mm_set_c (s : isaac_state) (c : Z) : s_mm (set_c s c) = s_mm s.
Proof. reflexivity. Qed.

Lemma set_mm_set_c (s : isaac_state) (mm : list Z) (c : Z) :
  set_mm (set_c s c) mm = set_c (set_mm s mm) c.
Proof. reflexivity. Qed.

Lemma isaac_seed_data_eq (big_endian : bool) (s : isaac_state)
    (buf : list byte) :
  isaac_seed_data big_endian s buf
  = let res := seed_full_blocks (S (length buf)) big_endian s buf
                 ((ISAAC_BYTES - s_c s) mod size_modulus) in
    set_c (set_mm (fst res)
             (xor_bytes big_endian (s_mm (fst res)) (s_c (fst res)) (snd res)))
      (wrap (buf_size (snd res))).
Proof.
  unfold isaac_seed_data. cbv zeta.
  destruct (seed_full_blocks _ _ _ _ _) as [s' buf']. reflexivity.
Qed.

Lemma s_c_set_c (s : isaac_state) (c : Z) : s_c (set_c s c) = c.
Proof. reflexivity. Qed.

Lemma s_c_set_mm (s : isaac_state) (mm : list Z) : s_c (set_mm s mm) = s_c s.
Proof. reflexivity. Qed.

Lemma s_mm_set_mm (s : isaac_state) (mm : list Z) : s_mm (set_mm s mm) = mm.
Proof. reflexivity. Qed.

Lemma avail_small (c : Z) :
  0 <= c <= ISAAC_BYTES -> (ISAAC_BYTES - c) mod size_modulus = ISAAC_BYTES - c.
Proof.
  intros H. apply Z.mod_small. change ISAAC_BYTES with 1024 in *.
  change size_modulus with (2 ^ 64). lia.
Qed.

(** A buffer that fits in the current block is folded in at the write
    pointer, and the pointer is set to the size of the buffer (not moved by
    it). *)
Lemma isaac_seed_data_fits (big_endian : bool) (s : isaac_state)
    (buf : list byte) :
  0 <= s_c s <= ISAAC_BYTES ->
  buf_size buf <= ISAAC_BYTES - s_c s ->
  isaac_seed_data big_endian s buf
  = set_c (set_mm s (xor_bytes big_endian (s_mm s) (s_c s) buf))
      (buf_size buf).
Proof.
  intros Hc Hfit. rewrite isaac_seed_data_eq, avail_small by exact Hc.
  rewrite seed_full_blocks_stop by exact Hfit.
  cbv zeta. rewrite fst_pair, snd_pair.
  rewrite wrap_small; [reflexivity|].
  unfold buf_size in *. change ISAAC_BYTES with 1024 in *.
  change modulus with (2 ^ 32). lia.
Qed.

(** A buffer that overflows the current block by at most one block. *)
Lemma isaac_seed_data_overflow (big_endian : bool) (s : isaac_state)
    (buf : list byte) :
  0 <= s_c s <= ISAAC_BYTES ->
  ISAAC_BYTES - s_c s < buf_size buf <= ISAAC_BYTES - s_c s + ISAAC_BYTES ->
  isaac_seed_data big_endian s buf
  = let n := Z.to_nat (ISAAC_BYTES - s_c s) in
    let s' := isaac_mix
                (set_mm s (xor_bytes big_endian (s_mm s) (s_c s) (take n buf)))
                SeedState in
    set_c (set_mm s' (xor_bytes big_endian (s_mm s') 0 (drop n buf)))
      (buf_size (drop n buf)).
Proof.
  intros Hc Hsize. rewrite isaac_seed_data_eq, avail_small by exact Hc.
  rewrite seed_full_blocks_step by lia.
  assert (Hrest : buf_size (drop (Z.to_nat (ISAAC_BYTES - s_c s)) buf)
                  <= ISAAC_BYTES).
  { unfold buf_size in *. rewrite length_drop. lia. }
  rewrite seed_full_blocks_stop by exact Hrest.
  cbv zeta. rewrite fst_pair, snd_pair.
  rewrite s_c_set_c, s_mm_set_c, set_mm_set_c, set_c_twice.
  rewrite wrap_small; [reflexivity|].
  unfold buf_size in *. change ISAAC_BYTES with 1024 in *.
  change modulus with (2 ^ 32). lia.
Qed.

(** The instance the design document quotes does hold when seeding starts
    with the write pointer at 0: 2000 bytes in one call or in two calls of
    1000 bytes leave the same state. *)
Lemma isaac_seed_data_2000_split (big_endian : bool) (s : isaac_state)
    (b1 b2 : list byte) :
  s_c s = 0 ->
  length b1 = 1000%nat ->
  length b2 = 1000%nat ->
  isaac_seed_data big_endian (isaac_seed_data big_endian s b1) b2
  = isaac_seed_data big_endian s (b1 ++ b2).
Proof.
  intros Hc H1 H2.
  assert (Hb1 : buf_size b1 = 1000) by (unfold buf_size; now rewrite H1).
  assert (Hb2 : buf_size b2 = 1000) by (unfold buf_size; now rewrite H2).
  assert (Hb12 : buf_size (b1 ++ b2) = 2000)
    by (unfold buf_size; rewrite length_app, H1, H2; reflexivity).
  rewrite (isaac_seed_data_fits big_endian s b1)
    by (rewrite Hc, ?Hb1; change ISAAC_BYTES with 1024; lia).
  rewrite isaac_seed_data_overflow;
    rewrite ?s_c_set_c, ?Hb1, ?Hb2; [|change ISAAC_BYTES with 1024; lia ..].
  rewrite (isaac_seed_data_overflow big_endian s (b1 ++ b2));
    rewrite ?Hc, ?Hb12; [|change ISAAC_BYTES with 1024; lia ..].
  cbv zeta.
  change (Z.to_nat (ISAAC_BYTES - 1000)) with 24%nat.
  change (Z.to_nat (ISAAC_BYTES - 0)) with 1024%nat.
  rewrite take_app_ge, drop_app_ge by lia.
  rewrite H1. change (1024 - 1000)%nat with 24%nat.
  rewrite xor_bytes_app, Hb1, s_mm_set_c, s_mm_set_mm.
  rewrite set_mm_over, isaac_mix_set_c, s_mm_set_c, set_mm_set_c, set_c_twice.
  reflexivity.
Qed.

(** C1 (the code departs from it): seeding is meant to give the same
    state however the bytes are cut into buffers, [s->c] being the write
    pointer into the main array, but [isaac_seed_data] ends with
    [s->c = size] and so loses the pointer whenever a buffer fits in the
    current block ([isaac_seed_data_fits]).  From the freshly started state,
    the bytes [01 02] given in one call leave [c] at 2, given in two calls
    they leave it at 1; with a third byte the second and third pieces are
    both folded into byte 1 of the array, so the main array differs too.
    This holds for either byte order. *)
Theorem isaac_seed_data_split_differs (big_endian : bool) :
  let whole2 := isaac_seed_data big_endian fresh_state [x01; x02] in
  let split2 := seed_pieces big_endian fresh_state [[x01]; [x02]] in
  let whole3 := isaac_seed_data big_endian fresh_state [x01; x02; x04] in
  let split3 := seed_pieces big_endian fresh_state [[x01]; [x02]; [x04]] in
  s_c whole2 = 2 /\ s_c split2 = 1 /\ whole2 <> split2
  /\ s_c whole3 = 3 /\ s_c split3 = 1
  /\ word_at (s_mm whole3) 0 <> word_at (s_mm split3) 0.
Proof.
  destruct big_endian; vm_compute; repeat split; discriminate.
Qed.

(** ** End of seeding *)

(** C7: [isaac_seed_finish] runs the mixing pass over the 256 words of the
    main array twice, whatever the state holds, and then sets [c] to 0;
    [a] and [b] keep their values.  The two passes are spelled out with
    [mix_chain]: the second one starts from the accumulators and the array
    that the first one leaves. *)
Theorem isaac_seed_finish_two_passes (s : isaac_state) :
  length (s_mm s) = 256%nat ->
  length (s_iv s) = 8%nat ->
  let pass1 := mix_chain (load_iv (s_iv s)) (s_mm s) in
  let pass2 := mix_chain (fst pass1) (snd pass1) in
  isaac_seed_finish s = set_c (isaac_mix (isaac_mix s SeedState) SeedState) 0
  /\ s_mm (isaac_seed_finish s) = snd pass2
  /\ s_iv (isaac_seed_finish s) = acc8_to_list (fst pass2)
  /\ length (s_mm (isaac_seed_finish s)) = 256%nat
  /\ s_a (isaac_seed_finish s) = s_a s
  /\ s_b (isaac_seed_finish s) = s_b s
  /\ s_c (isaac_seed_finish s) = 0.
Proof.
  intros Hmm Hiv pass1 pass2.
  assert (Hlen1 : length (snd pass1) = 256%nat).
  { subst pass1. rewrite (mix_chain_length 32) by exact Hmm. exact Hmm. }
  assert (Hlen2 : length (snd pass2) = 256%nat).
  { subst pass2. rewrite (mix_chain_length 32) by exact Hlen1. exact Hlen1. }
  assert (Hfin : isaac_seed_finish s
                 = mk_isaac (snd pass2) (acc8_to_list (fst pass2))
                     (s_a s) (s_b s) 0).
  { unfold isaac_seed_finish.
    rewrite (isaac_mix_chain s) by assumption.
    rewrite isaac_mix_chain;
      cbn [s_mm s_iv s_a s_b s_c];
      [ | exact Hlen1 | apply length_acc8_to_list ].
    rewrite load_iv_acc8. reflexivity. }
  split; [reflexivity|].
  rewrite Hfin. cbn [s_mm s_iv s_a s_b s_c].
  repeat split; try reflexivity. exact Hlen2.
Qed.

Lemma isaac_seed_finish_two_passes_witness :
  (length (s_mm fresh_state) = 256%nat /\ length (s_iv fresh_state) = 8%nat)
  /\ s_c (isaac_seed_finish fresh_state) = 0
  /\ s_a (isaac_seed_finish fresh_state) = s_a fresh_state
  /\ s_mm (isaac_seed_finish fresh_state)
     = snd (mix_chain
              (fst (mix_chain (load_iv (s_iv fresh_state)) (s_mm fresh_state)))
              (snd (mix_chain (load_iv (s_iv fresh_state)) (s_mm fresh_state)))).
Proof.
  split; [split; reflexivity|].
  destruct (isaac_seed_finish_two_passes fresh_state)
    as (_ & Hmm & _ & _ & Ha & _ & Hc); [reflexivity | reflexivity |].
  split; [exact Hc|]. split; [exact Ha | exact Hmm].
Defined.

(** With nothing accumulated the two passes still scramble the array. *)
Lemma isaac_seed_finish_fresh_not_zero :
  take 2 (s_mm (isaac_seed_finish fresh_state)) = [0xdb792195; 0xe63bf923]
  /\ take 2 (s_mm fresh_state) = [0; 0].
Proof. vm_compute. split; reflexivity. Qed.

(** ** The refill *)

Lemma isaac_step_set_rpos (mixf : Z -> Z) (off m rofs p : Z) (st : refill_vars) :
  isaac_step mixf off m rofs (set_rpos st p)
  = set_rpos (isaac_step mixf off m (rofs + p - v_rpos st) st) p.
Proof.
  unfold isaac_step, set_rpos. cbn [v_a v_b v_mm v_r v_rpos].
  f_equal. f_equal. lia.
Qed.

Lemma v_rpos_isaac_step (mixf : Z -> Z) (off m rofs : Z) (st : refill_vars) :
  v_rpos (isaac_step mixf off m rofs st) = v_rpos st.
Proof. reflexivity. Qed.

Lemma v_rpos_refill_prefix (k : nat) (st : refill_vars) :
  v_rpos (refill_prefix k st) = v_rpos st.
Proof. induction k as [|k IH]; [reflexivity | exact IH]. Qed.

Lemma mod4_offset (q j : nat) : (j < 4)%nat -> ((4 * q + j) mod 4 = j)%nat.
Proof.
  intros Hj. rewrite Nat.add_comm, Nat.mul_comm, Nat.Div0.mod_add.
  now apply Nat.mod_small.
Qed.

Lemma step_mix_0 (q : nat) (a : Z) : step_mix (4 * q) a = shl32 a 13.
Proof. unfold step_mix. rewrite <- (Nat.add_0_r (4 * q)), mod4_offset by lia. reflexivity. Qed.

Lemma step_mix_1 (q : nat) (a : Z) : step_mix (4 * q + 1) a = shr32 a 6.
Proof. unfold step_mix. rewrite mod4_offset by lia. reflexivity. Qed.

Lemma step_mix_2 (q : nat) (a : Z) : step_mix (4 * q + 2) a = shl32 a 2.
Proof. unfold step_mix. rewrite mod4_offset by lia. reflexivity. Qed.

Lemma step_mix_3 (q : nat) (a : Z) : step_mix (4 * q + 3) a = shr32 a 16.
Proof. unfold step_mix. rewrite mod4_offset by lia. reflexivity. Qed.

(** The macro only ever applies its [mix] argument to the current [a]. *)
Lemma isaac_step_ext (f g : Z -> Z) (off m rofs : Z) (st : refill_vars) :
  f (v_a st) = g (v_a st) ->
  isaac_step f off m rofs st = isaac_step g off m rofs st.
Proof. intros H. unfold isaac_step. now rewrite H. Qed.

Lemma isaac_step_nth (f : Z -> Z) (off m rofs p : Z) (i : nat)
    (st : refill_vars) :
  v_rpos st = 0 ->
  m = Z.of_nat i ->
  p + rofs = Z.of_nat i ->
  off = step_off i ->
  f (v_a st) = step_mix i (v_a st) ->
  isaac_step f off m rofs (set_rpos st p) = set_rpos (step_nth i st) p.
Proof.
  intros Hpos -> Hp -> Hf.
  rewrite isaac_step_set_rpos. unfold step_nth.
  rewrite (isaac_step_ext f (step_mix i)) by exact Hf.
  do 2 f_equal. lia.
Qed.

Lemma refill_prefix_4 (q : nat) (st0 : refill_vars) :
  refill_prefix (4 * S q) st0
  = step_nth (4 * q + 3) (step_nth (4 * q + 2) (step_nth (4 * q + 1)
      (step_nth (4 * q) (refill_prefix (4 * q) st0)))).
Proof.
  replace (4 * S q)%nat with (S (S (S (S (4 * q))))) by lia.
  replace (4 * q + 3)%nat with (S (S (S (4 * q)))) by lia.
  replace (4 * q + 2)%nat with (S (S (4 * q))) by lia.
  replace (4 * q + 1)%nat with (S (4 * q)) by lia.
  reflexivity.
Qed.

Lemma v_rpos_step_nth (i : nat) (st : refill_vars) :
  v_rpos (step_nth i st) = v_rpos st.
Proof. reflexivity. Qed.

Lemma refill_body_eq (off m : Z) (st : refill_vars) :
  refill_body off m st
  = let st' :=
      isaac_step (fun a => shr32 a 16) off (m + 3) 3
        (isaac_step (fun a => shl32 a 2) off (m + 2) 2
           (isaac_step (fun a => shr32 a 6) off (m + 1) 1
              (isaac_step (fun a => shl32 a 13) off m 0 st))) in
    set_rpos st' (v_rpos st' + 4).
Proof. reflexivity. Qed.

Lemma set_rpos_twice (st : refill_vars) (p p' : Z) :
  set_rpos (set_rpos st p) p' = set_rpos st p'.
Proof. reflexivity. Qed.

Lemma v_rpos_set_rpos (st : refill_vars) (p : Z) : v_rpos (set_rpos st p) = p.
Proof. reflexivity. Qed.

Lemma refill_body_prefix (off : Z) (q : nat) (st0 : refill_vars) :
  v_rpos st0 = 0 ->
  (forall j : nat, (j < 4)%nat -> step_off (4 * q + j) = off) ->
  refill_body off (Z.of_nat (4 * q))
    (set_rpos (refill_prefix (4 * q) st0) (Z.of_nat (4 * q)))
  = set_rpos (refill_prefix (4 * S q) st0) (Z.of_nat (4 * S q)).
Proof.
  intros Hpos Hoff.
  rewrite refill_prefix_4. generalize (refill_prefix (4 * q) st0) (v_rpos_refill_prefix (4 * q) st0).
  intros st Hst. rewrite Hpos in Hst.
  rewrite refill_body_eq. cbv zeta.
  rewrite !v_rpos_isaac_step, v_rpos_set_rpos.
  rewrite (isaac_step_nth _ off _ 0 _ (4 * q) st);
    [ | exact Hst | reflexivity | lia
      | rewrite <- (Hoff 0%nat) by lia; f_equal; lia
      | now rewrite step_mix_0 ].
  rewrite (isaac_step_nth _ off _ 1 _ (4 * q + 1));
    [ | now rewrite v_rpos_step_nth | lia | lia
      | now rewrite <- (Hoff 1%nat) by lia
      | now rewrite step_mix_1 ].
  rewrite (isaac_step_nth _ off _ 2 _ (4 * q + 2));
    [ | now rewrite !v_rpos_step_nth | lia | lia
      | now rewrite <- (Hoff 2%nat) by lia
      | now rewrite step_mix_2 ].
  rewrite (isaac_step_nth _ off _ 3 _ (4 * q + 3));
    [ | now rewrite !v_rpos_step_nth | lia | lia
      | now rewrite <- (Hoff 3%nat) by lia
      | now rewrite step_mix_3 ].
  rewrite set_rpos_twice. f_equal. lia.
Qed.

Lemma loop_iter_S {St : Type} (n : nat) (m step : Z)
    (body : Z -> St -> St) (st : St) :
  loop_iter (S n) m step body st = loop_iter n (m + step) step body (body m st).
Proof. reflexivity. Qed.

Lemma refill_loop_prefix (off : Z) (st0 : refill_vars) (n : nat) :
  v_rpos st0 = 0 ->
  forall q : nat,
    (forall i : nat, (4 * q <= i < 4 * (q + n))%nat -> step_off i = off) ->
    loop_iter n (Z.of_nat (4 * q)) 4 (refill_body off)
      (set_rpos (refill_prefix (4 * q) st0) (Z.of_nat (4 * q)))
    = set_rpos (refill_prefix (4 * (q + n)) st0) (Z.of_nat (4 * (q + n))).
Proof.
  intros Hpos. induction n as [|n IH]; intros q Hoff.
  - rewrite Nat.add_0_r. reflexivity.
  - rewrite loop_iter_S, refill_body_prefix;
      [ | exact Hpos | intros j Hj; apply Hoff; lia ].
    replace (Z.of_nat (4 * q) + 4) with (Z.of_nat (4 * S q)) by lia.
    rewrite IH by (intros i Hi; apply Hoff; lia).
    replace (S q + n)%nat with (q + S n)%nat by lia. reflexivity.
Qed.

Lemma set_rpos_id (st : refill_vars) (p : Z) :
  v_rpos st = p -> set_rpos st p = st.
Proof. destruct st. cbn. now intros ->. Qed.

Lemma isaac_refill_eq (s : isaac_state) (r : list Z) :
  isaac_refill s r
  = let first :=
      do_while refill_fuel 0 (ISAAC_WORDS / 2) 4
        (refill_body (ISAAC_WORDS / 2)) (refill_entry s r) in
    let second :=
      do_while refill_fuel (fst first) ISAAC_WORDS 4
        (refill_body (- ISAAC_WORDS / 2)) (snd first) in
    (mk_isaac (v_mm (snd second)) (s_iv s) (v_a (snd second))
       (v_b (snd second)) (wrap (s_c s + 1)),
     v_r (snd second)).
Proof.
  unfold isaac_refill. cbv zeta. fold (refill_entry s r).
  destruct (do_while refill_fuel 0 _ _ _ _) as [m st].
  rewrite fst_pair, snd_pair.
  destruct (do_while refill_fuel m _ _ _ _) as [m' st'].
  reflexivity.
Qed.

Lemma step_off_low (i : nat) :
  (i < 128)%nat -> step_off i = ISAAC_WORDS / 2.
Proof.
  intros Hi. unfold step_off. change (ISAAC_WORDS / 2) with 128.
  destruct (Z.of_nat i <? 128) eqn:E; [reflexivity | apply Z.ltb_ge in E; lia].
Qed.

Lemma step_off_high (i : nat) :
  (128 <= i)%nat -> step_off i = - ISAAC_WORDS / 2.
Proof.
  intros Hi. unfold step_off. change (ISAAC_WORDS / 2) with 128.
  destruct (Z.of_nat i <? 128) eqn:E; [apply Z.ltb_lt in E; lia | reflexivity].
Qed.

(** The two loops of [isaac_refill] run the 256 steps in order. *)
Lemma refill_loops_prefix (st0 : refill_vars) :
  v_rpos st0 = 0 ->
  let first :=
    do_while refill_fuel 0 (ISAAC_WORDS / 2) 4
      (refill_body (ISAAC_WORDS / 2)) st0 in
  do_while refill_fuel (fst first) ISAAC_WORDS 4
    (refill_body (- ISAAC_WORDS / 2)) (snd first)
  = (ISAAC_WORDS, set_rpos (refill_prefix 256 st0) 256).
Proof.
  intros Hpos. cbv zeta.
  rewrite (do_while_iter _ 4 (ISAAC_WORDS / 2) ltac:(lia) 31 refill_fuel 0)
    by (first [ unfold refill_fuel; change (Z.to_nat ISAAC_WORDS) with 256%nat; lia
              | change (ISAAC_WORDS / 2) with 128; lia ]).
  rewrite fst_pair, snd_pair.
  change (0 + (Z.of_nat 31 + 1) * 4) with (ISAAC_WORDS / 2).
  rewrite (do_while_iter _ 4 ISAAC_WORDS ltac:(lia) 31 refill_fuel
             (ISAAC_WORDS / 2))
    by (first [ unfold refill_fuel; change (Z.to_nat ISAAC_WORDS) with 256%nat; lia
              | change (ISAAC_WORDS / 2) with 128; change ISAAC_WORDS with 256; lia ]).
  change (ISAAC_WORDS / 2 + (Z.of_nat 31 + 1) * 4) with ISAAC_WORDS.
  f_equal.
  pose proof (refill_loop_prefix (ISAAC_WORDS / 2) st0 32 Hpos 0) as H1.
  change (4 * (0 + 32))%nat with 128%nat in H1.
  change (4 * 0)%nat with 0%nat in H1.
  change (Z.of_nat 0) with 0 in H1.
  change (Z.of_nat 128) with (ISAAC_WORDS / 2) in H1.
  change (refill_prefix 0 st0) with st0 in H1.
  rewrite (set_rpos_id st0 0 Hpos) in H1.
  rewrite H1 by (intros i Hi; apply step_off_low; lia).
  pose proof (refill_loop_prefix (- ISAAC_WORDS / 2) st0 32 Hpos 32) as H2.
  change (4 * (32 + 32))%nat with 256%nat in H2.
  change (4 * 32)%nat with 128%nat in H2.
  change (Z.of_nat 128) with (ISAAC_WORDS / 2) in H2.
  change (Z.of_nat 256) with 256 in H2.
  rewrite H2 by (intros i Hi; apply step_off_high; lia).
  reflexivity.
Qed.

Lemma set_rpos_fields (st : refill_vars) (p : Z) :
  v_a (set_rpos st p) = v_a st /\ v_b (set_rpos st p) = v_b st
  /\ v_mm (set_rpos st p) = v_mm st /\ v_r (set_rpos st p) = v_r st.
Proof. repeat split; reflexivity. Qed.

Lemma isaac_refill_prefix (s : isaac_state) (r : list Z) :
  isaac_refill s r
  = let st := refill_prefix 256 (refill_entry s r) in
    (mk_isaac (v_mm st) (s_iv s) (v_a st) (v_b st) (wrap (s_c s + 1)),
     v_r st).
Proof.
  rewrite isaac_refill_eq. cbv zeta.
  rewrite (refill_loops_prefix (refill_entry s r) eq_refl), snd_pair.
  destruct (set_rpos_fields (refill_prefix 256 (refill_entry s r)) 256)
    as (-> & -> & -> & ->).
  reflexivity.
Qed.

Lemma refill_prefix_S (k : nat) (st : refill_vars) :
  refill_prefix (S k) st = step_nth k (refill_prefix k st).
Proof. reflexivity. Qed.

Lemma length_mm_refill_prefix (k : nat) (st : refill_vars) :
  length (v_mm (refill_prefix k st)) = length (v_mm st).
Proof.
  induction k as [|k IH]; [reflexivity|].
  cbn [refill_prefix]. unfold step_nth, isaac_step. cbn [v_mm].
  now rewrite length_store_at.
Qed.

Lemma length_r_refill_prefix (k : nat) (st : refill_vars) :
  length (v_r (refill_prefix k st)) = length (v_r st).
Proof.
  induction k as [|k IH]; [reflexivity|].
  cbn [refill_prefix]. unfold step_nth, isaac_step. cbn [v_r].
  now rewrite length_store_at.
Qed.

(** Step [i] stores into word [i] of both arrays and nowhere else. *)
Lemma step_nth_frame (i j : nat) (st : refill_vars) :
  j <> i ->
  word_at (v_mm (step_nth i st)) (Z.of_nat j) = word_at (v_mm st) (Z.of_nat j)
  /\ word_at (v_r (step_nth i st)) (Z.of_nat j) = word_at (v_r st) (Z.of_nat j).
Proof.
  intros Hne. unfold step_nth, isaac_step. cbn [v_mm v_r v_rpos].
  split; apply word_at_store_at_ne; lia.
Qed.

Lemma step_nth_written (i : nat) (st : refill_vars) :
  (i < length (v_mm st))%nat ->
  (i < length (v_r st))%nat ->
  let st' := step_nth i st in
  v_a st' = add32 (xor32 (v_a st) (step_mix i (v_a st)))
              (word_at (v_mm st) (Z.of_nat i + step_off i))
  /\ word_at (v_mm st') (Z.of_nat i)
     = wrap (ind (v_mm st) (word_at (v_mm st) (Z.of_nat i)) + v_a st' + v_b st)
  /\ v_b st' = add32 (ind (v_mm st') (shr32 (word_at (v_mm st') (Z.of_nat i))
                                        ISAAC_LOG))
                 (word_at (v_mm st) (Z.of_nat i))
  /\ word_at (v_r st') (Z.of_nat i) = v_b st'.
Proof.
  intros Hmm Hr st'. subst st'. unfold step_nth, isaac_step.
  cbn [v_a v_b v_mm v_r v_rpos].
  replace (v_rpos st + (Z.of_nat i - v_rpos st)) with (Z.of_nat i) by lia.
  rewrite !word_at_store_at_eq by lia.
  repeat split; reflexivity.
Qed.

Lemma refill_prefix_frame (st : refill_vars) (i k : nat) :
  (i < k)%nat ->
  forall d : nat,
    word_at (v_mm (refill_prefix (k + d) st)) (Z.of_nat i)
    = word_at (v_mm (refill_prefix k st)) (Z.of_nat i)
    /\ word_at (v_r (refill_prefix (k + d) st)) (Z.of_nat i)
       = word_at (v_r (refill_prefix k st)) (Z.of_nat i).
Proof.
  intros Hik. induction d as [|d [IHmm IHr]].
  - rewrite Nat.add_0_r. split; reflexivity.
  - replace (k + S d)%nat with (S (k + d)) by lia. cbn [refill_prefix].
    destruct (step_nth_frame (k + d) i (refill_prefix (k + d) st)) as [Hmm Hr];
      [lia|].
    rewrite Hmm, Hr. split; assumption.
Qed.

(** A step reads [a], [b] and the main array only. *)
Lemma step_nth_reads (i : nat) (st st' : refill_vars) :
  v_a st = v_a st' -> v_b st = v_b st' -> v_mm st = v_mm st' ->
  v_a (step_nth i st) = v_a (step_nth i st')
  /\ v_b (step_nth i st) = v_b (step_nth i st')
  /\ v_mm (step_nth i st) = v_mm (step_nth i st').
Proof.
  intros Ha Hb Hmm. unfold step_nth, isaac_step. cbn [v_a v_b v_mm].
  rewrite Ha, Hb, Hmm. repeat split; reflexivity.
Qed.

Lemma v_r_step_nth (i : nat) (st : refill_vars) :
  v_r (step_nth i st) = <[i := v_b (step_nth i st)]> (v_r st).
Proof.
  unfold step_nth, isaac_step, store_at. cbn [v_r v_b v_rpos].
  f_equal. lia.
Qed.

Lemma refill_prefix_reads (st st' : refill_vars) :
  v_a st = v_a st' -> v_b st = v_b st' -> v_mm st = v_mm st' ->
  length (v_r st) = length (v_r st') ->
  forall k : nat,
    (k <= length (v_r st))%nat ->
    v_a (refill_prefix k st) = v_a (refill_prefix k st')
    /\ v_b (refill_prefix k st) = v_b (refill_prefix k st')
    /\ v_mm (refill_prefix k st) = v_mm (refill_prefix k st')
    /\ take k (v_r (refill_prefix k st)) = take k (v_r (refill_prefix k st')).
Proof.
  intros Ha Hb Hmm Hlen k. induction k as [|k IH]; intros Hk.
  - repeat split; assumption.
  - destruct IH as (IHa & IHb & IHmm & IHr); [lia|].
    cbn [refill_prefix].
    destruct (step_nth_reads k _ _ IHa IHb IHmm) as (Ea & Eb & Emm).
    repeat split; try assumption.
    rewrite !v_r_step_nth, Eb.
    rewrite !(take_S_r _ _ (v_b (step_nth k (refill_prefix k st')))).
    + rewrite !take_insert_ge by lia. now rewrite IHr.
    + apply list_lookup_insert_eq. rewrite length_r_refill_prefix. lia.
    + apply list_lookup_insert_eq. rewrite length_r_refill_prefix. lia.
Qed.

Lemma step_off_index (i : nat) :
  (i < 256)%nat -> Z.of_nat i + step_off i = (Z.of_nat i + 128) mod 256.
Proof.
  intros Hi. unfold step_off. change (ISAAC_WORDS / 2) with 128.
  change (- ISAAC_WORDS / 2) with (-128).
  destruct (Z.of_nat i <? 128) eqn:E.
  - apply Z.ltb_lt in E. rewrite Z.mod_small; lia.
  - apply Z.ltb_ge in E.
    replace (Z.of_nat i + 128) with (Z.of_nat i - 128 + 1 * 256) by lia.
    rewrite Z.mod_add, Z.mod_small; lia.
Qed.

(** C3: a call of [isaac_refill] writes the 256 words of the output block
    and the 256 words of the main array, one of each per step, and assigns
    [a], [b] and [c].  [c] is incremented by one modulo 2^32, the running
    [b] starts at the stored [b] plus the incremented [c], step [i] adds
    [mm[(i + 128) mod 256]] to the scrambled [a], stores
    [y = ind (mm, x) + a + b] in [mm[i]] and emits the new [b] as output
    word [i]; what a step stores is never overwritten by a later step.  The
    output block and the new [mm], [a], [b], [c] depend on the old [mm],
    [a], [b], [c] only: neither on [iv], which the call leaves as it is, nor
    on what the output block held. *)
Theorem isaac_refill_block (s : isaac_state) (r : list Z) :
  length (s_mm s) = 256%nat ->
  length r = 256%nat ->
  let c' := wrap (s_c s + 1) in
  let st0 := mk_vars (s_a s) (wrap (s_b s + c')) (s_mm s) r 0 in
  let s' := fst (isaac_refill s r) in
  let out := snd (isaac_refill s r) in
  length out = 256%nat
  /\ length (s_mm s') = 256%nat
  /\ s_c s' = c'
  /\ s_iv s' = s_iv s
  /\ s_a s' = v_a (refill_prefix 256 st0)
  /\ s_b s' = v_b (refill_prefix 256 st0)
  /\ (forall i : nat, (i < 256)%nat ->
        let pre := refill_prefix i st0 in
        let post := refill_prefix (S i) st0 in
        v_a post = add32 (xor32 (v_a pre) (step_mix i (v_a pre)))
                     (word_at (v_mm pre) ((Z.of_nat i + 128) mod 256))
        /\ word_at (s_mm s') (Z.of_nat i)
           = wrap (ind (v_mm pre) (word_at (v_mm pre) (Z.of_nat i))
                   + v_a post + v_b pre)
        /\ word_at out (Z.of_nat i) = v_b post
        /\ 0 <= word_at out (Z.of_nat i) < modulus)
  /\ (forall (s2 : isaac_state) (r2 : list Z),
        length r2 = 256%nat ->
        s_mm s2 = s_mm s -> s_a s2 = s_a s -> s_b s2 = s_b s ->
        s_c s2 = s_c s ->
        snd (isaac_refill s2 r2) = out
        /\ s_mm (fst (isaac_refill s2 r2)) = s_mm s'
        /\ s_a (fst (isaac_refill s2 r2)) = s_a s'
        /\ s_b (fst (isaac_refill s2 r2)) = s_b s'
        /\ s_c (fst (isaac_refill s2 r2)) = s_c s').
Proof.
  intros Hmm Hr c' st0 s' out. subst s' out.
  rewrite isaac_refill_prefix. cbv zeta. cbn [fst snd s_mm s_iv s_a s_b s_c].
  change (refill_entry s r) with st0.
  split; [now rewrite length_r_refill_prefix|].
  split; [now rewrite length_mm_refill_prefix|].
  do 4 (split; [reflexivity|]).
  split.
  - intros i Hi.
    pose proof (step_nth_written i (refill_prefix i st0)) as H.
    cbv zeta in H. rewrite <- refill_prefix_S in H.
    destruct H as (Ha & Hw & Hb & Ho).
    { rewrite length_mm_refill_prefix. cbn [st0 v_mm]. lia. }
    { rewrite length_r_refill_prefix. cbn [st0 v_r]. lia. }
    destruct (refill_prefix_frame st0 i (S i) ltac:(lia) (255 - i))
      as [Fmm Fr].
    replace (S i + (255 - i))%nat with 256%nat in Fmm, Fr by lia.
    rewrite Fmm, Fr.
    rewrite <- step_off_index by exact Hi.
    split; [exact Ha|]. split; [exact Hw|]. split; [exact Ho|].
    rewrite Ho, Hb. apply wrap_range.
  - intros s2 r2 Hr2 Emm Ea Eb Ec.
    rewrite isaac_refill_prefix. cbv zeta. cbn [fst snd s_mm s_iv s_a s_b s_c].
    destruct (refill_prefix_reads (refill_entry s2 r2) st0) with (k := 256%nat)
      as (Ha & Hb & Hm & Ht).
    + exact Ea.
    + cbn [refill_entry st0 v_b]. subst c'. unfold add32. now rewrite Eb, Ec.
    + exact Emm.
    + cbn [refill_entry st0 v_r]. now rewrite Hr2, Hr.
    + cbn [refill_entry v_r]. lia.
    + rewrite !take_ge in Ht
        by (rewrite length_r_refill_prefix; cbn [refill_entry st0 v_r]; lia).
      rewrite Ha, Hb, Hm, Ht, Ec. repeat split; reflexivity.
Qed.

Lemma isaac_refill_block_witness :
  (length (s_mm seeded_state) = 256%nat
   /\ length (replicate 256 0 : list Z) = 256%nat)
  /\ length (snd (isaac_refill seeded_state (replicate 256 0))) = 256%nat
  /\ s_c (fst (isaac_refill seeded_state (replicate 256 0)))
     = wrap (s_c seeded_state + 1).
Proof.
  split; [split; reflexivity|].
  destruct (isaac_refill_block seeded_state (replicate 256 0))
    as (Hout & _ & Hc & _); [reflexivity | reflexivity |].
  split; [exact Hout | exact Hc].
Defined.

(** Known answer: seeded with no data, the generator is in the state that
    the reference implementation of ISAAC reaches from an all-zero seed, and
    its second block starts with the words of the published test vector
    (the reference draws one block while it initialises). *)
Lemma isaac_reference_vector :
  let first := isaac_refill seeded_state (replicate 256 0) in
  let second := isaac_refill (fst first) (snd first) in
  take 8 (snd second)
  = [ 0xf650e4c8; 0xe448e96d; 0x98db2fb4; 0xf5fad54f;
      0x433f1afb; 0xedec154a; 0xd8370487; 0x46ca4f9a ].
Proof. vm_compute. reflexivity. Qed.

Lemma all_words_word_at (l : list Z) (i : Z) :
  all_words l = true ->
  (Z.to_nat i < length l)%nat ->
  0 <= word_at l i < modulus.
Proof.
  intros Hall Hi. unfold all_words in Hall.
  rewrite List.forallb_forall in Hall.
  apply is_word_spec, Hall, list_elem_of_In.
  unfold word_at. now apply list_elem_of_lookup_total_2.
Qed.

Lemma all_words_intro (l : list Z) :
  (forall i : nat, (i < length l)%nat ->
     0 <= word_at l (Z.of_nat i) < modulus) ->
  all_words l = true.
Proof.
  intros H. unfold all_words. apply List.forallb_forall. intros x Hx.
  apply list_elem_of_In, list_elem_of_lookup in Hx. destruct Hx as [i Hi].
  apply is_word_spec.
  pose proof (lookup_lt_Some _ _ _ Hi) as Hlt.
  specialize (H i Hlt). unfold word_at in H.
  rewrite Nat2Z.id in H.
  now rewrite (list_lookup_total_correct _ _ _ Hi) in H.
Qed.

Lemma isaac_refill_output_word (s : isaac_state) (r : list Z) (i : nat) :
  length (s_mm s) = 256%nat ->
  length r = 256%nat ->
  (i < 256)%nat ->
  0 <= word_at (snd (isaac_refill s r)) (Z.of_nat i) < modulus.
Proof.
  intros Hmm Hr Hi.
  rewrite isaac_refill_prefix. cbv zeta. cbn [snd].
  set (st0 := refill_entry s r).
  pose proof (step_nth_written i (refill_prefix i st0)) as H.
  cbv zeta in H. rewrite <- refill_prefix_S in H.
  destruct H as (_ & _ & Hb & Ho).
  { rewrite length_mm_refill_prefix. subst st0. cbn [refill_entry v_mm]. lia. }
  { rewrite length_r_refill_prefix. subst st0. cbn [refill_entry v_r]. lia. }
  destruct (refill_prefix_frame st0 i (S i) ltac:(lia) (255 - i)) as [_ Fr].
  replace (S i + (255 - i))%nat with 256%nat in Fr by lia.
  rewrite Fr, Ho, Hb. apply wrap_range.
Qed.

Lemma isaac_wf_spec (s : isaac_state) :
  isaac_wf s = true <->
  length (s_mm s) = 256%nat /\ length (s_iv s) = 8%nat
  /\ all_words (s_mm s) = true /\ all_words (s_iv s) = true
  /\ is_word (s_a s) = true /\ is_word (s_b s) = true
  /\ is_word (s_c s) = true.
Proof.
  unfold isaac_wf. rewrite !andb_true_iff, !Nat.eqb_eq.
  change (Z.to_nat ISAAC_WORDS) with 256%nat. tauto.
Qed.

(** A refill keeps the generator well formed and fills the block with
    32-bit words. *)
Lemma isaac_refill_wf (s : isaac_state) (r : list Z) :
  isaac_wf s = true ->
  length r = 256%nat ->
  isaac_wf (fst (isaac_refill s r)) = true
  /\ length (snd (isaac_refill s r)) = 256%nat
  /\ all_words (snd (isaac_refill s r)) = true.
Proof.
  intros Hwf Hr. apply isaac_wf_spec in Hwf.
  destruct Hwf as (Hmm & Hiv & _ & Hwiv & _).
  assert (Hout : length (snd (isaac_refill s r)) = 256%nat).
  { rewrite isaac_refill_prefix. cbv zeta. rewrite snd_pair.
    now rewrite length_r_refill_prefix. }
  split; [|split; [exact Hout|]].
  - rewrite isaac_refill_prefix. cbv zeta. rewrite fst_pair.
    set (st0 := refill_entry s r).
    pose proof (step_nth_written 255 (refill_prefix 255 st0)) as Hlast.
    cbv zeta in Hlast. rewrite <- refill_prefix_S in Hlast.
    destruct Hlast as (Ha & _ & Hb & _).
    { rewrite length_mm_refill_prefix. subst st0. cbn [refill_entry v_mm]. lia. }
    { rewrite length_r_refill_prefix. subst st0. cbn [refill_entry v_r]. lia. }
    apply isaac_wf_spec. cbn [s_mm s_iv s_a s_b s_c].
    split; [now rewrite length_mm_refill_prefix|].
    split; [exact Hiv|]. split; [|split; [exact Hwiv|]].
    + apply all_words_intro. intros i Hi.
      rewrite length_mm_refill_prefix in Hi.
      change (length (v_mm st0)) with (length (s_mm s)) in Hi.
      pose proof (step_nth_written i (refill_prefix i st0)) as H.
      cbv zeta in H. rewrite <- refill_prefix_S in H.
      destruct H as (_ & Hw & _).
      { rewrite length_mm_refill_prefix. subst st0. cbn [refill_entry v_mm]. lia. }
      { rewrite length_r_refill_prefix. subst st0. cbn [refill_entry v_r]. lia. }
      destruct (refill_prefix_frame st0 i (S i) ltac:(lia) (255 - i)) as [Fmm _].
      replace (S i + (255 - i))%nat with 256%nat in Fmm by lia.
      rewrite Fmm, Hw. apply wrap_range.
    + rewrite Ha, Hb. unfold add32. rewrite !is_word_wrap. auto.
  - apply all_words_intro. intros i Hi. rewrite Hout in Hi.
    now apply isaac_refill_output_word.
Qed.

(** ** The word stream *)

Lemma irand32_refill (r : irand_state) :
  r_numleft r = 0 ->
  irand32 r
  = (word_at (snd (isaac_refill (r_s r) (r_r r))) 255,
     mk_irand (snd (isaac_refill (r_s r) (r_r r))) 255
       (fst (isaac_refill (r_s r) (r_r r)))).
Proof.
  intros H0. unfold irand32. rewrite H0. cbn [Z.eqb].
  destruct (isaac_refill (r_s r) (r_r r)) as [s out].
  cbn [r_r r_numleft r_s fst snd].
  change (wrap (ISAAC_WORDS - 1)) with 255. reflexivity.
Qed.

Lemma irand32_buffered (r : irand_state) :
  0 < r_numleft r <= modulus ->
  irand32 r
  = (word_at (r_r r) (r_numleft r - 1),
     mk_irand (r_r r) (r_numleft r - 1) (r_s r)).
Proof.
  intros H. unfold irand32.
  destruct (r_numleft r =? 0) eqn:E; [apply Z.eqb_eq in E; lia|].
  rewrite wrap_small by lia. reflexivity.
Qed.

Lemma wrap_succ (x : Z) : wrap (wrap x + 1) = wrap (x + 1).
Proof. unfold wrap. apply Zplus_mod_idemp_l. Qed.

Lemma wrap_wrap (x : Z) : wrap (wrap x) = wrap x.
Proof. unfold wrap. apply Z.mod_mod. discriminate. Qed.

Lemma isaac_refill_c (s : isaac_state) (r : list Z) :
  s_c (fst (isaac_refill s r)) = wrap (s_c s + 1).
Proof. rewrite isaac_refill_eq. reflexivity. Qed.

Lemma irand32_iter_S (k : nat) (r : irand_state) :
  irand32_iter (S k) r = snd (irand32 (irand32_iter k r)).
Proof. reflexivity. Qed.

(** Bookkeeping of one call: how [numleft] and the refill counter move. *)
Lemma irand32_counts (r : irand_state) :
  0 <= r_numleft r <= ISAAC_WORDS ->
  r_numleft (snd (irand32 r))
  = (if r_numleft r =? 0 then ISAAC_WORDS else r_numleft r) - 1
  /\ s_c (r_s (snd (irand32 r)))
     = (if r_numleft r =? 0 then wrap (s_c (r_s r) + 1) else s_c (r_s r))
  /\ fst (irand32 r)
     = word_at (r_r (snd (irand32 r))) (r_numleft (snd (irand32 r))).
Proof.
  intros H. change ISAAC_WORDS with 256 in *.
  destruct (r_numleft r =? 0) eqn:E.
  - apply Z.eqb_eq in E. rewrite irand32_refill by exact E.
    cbn [fst snd r_numleft r_s r_r]. rewrite isaac_refill_c.
    repeat split; reflexivity.
  - apply Z.eqb_neq in E.
    rewrite irand32_buffered by (change modulus with 4294967296; lia).
    cbn [fst snd r_numleft r_s r_r]. repeat split; reflexivity.
Qed.

Lemma irand32_iter_counts (r : irand_state) (s : isaac_state) (k : nat) :
  let rk := irand32_iter k (irand_init r s) in
  r_numleft rk = (- Z.of_nat k) mod 256
  /\ wrap (s_c (r_s rk)) = wrap (s_c s + (Z.of_nat k + 255) / 256).
Proof.
  induction k as [|k [IHn IHc]]; cbv zeta in *.
  - split; [reflexivity|]. cbn [irand32_iter irand_init r_s].
    f_equal. change ((Z.of_nat 0 + 255) / 256) with 0. lia.
  - rewrite irand32_iter_S.
    set (rk := irand32_iter k (irand_init r s)) in *.
    assert (Hrange : 0 <= r_numleft rk <= ISAAC_WORDS).
    { rewrite IHn. change ISAAC_WORDS with 256.
      pose proof (Z.mod_pos_bound (- Z.of_nat k) 256). lia. }
    destruct (irand32_counts rk Hrange) as (Hn & Hc & _).
    rewrite Hn, Hc. change ISAAC_WORDS with 256.
    destruct (r_numleft rk =? 0) eqn:E.
    + apply Z.eqb_eq in E. rewrite E in IHn.
      assert (Hdiv : (Z.of_nat (S k) + 255) / 256
                     = (Z.of_nat k + 255) / 256 + 1)
        by (Z.div_mod_to_equations; lia).
      split; [Z.div_mod_to_equations; lia|].
      rewrite Hdiv, wrap_wrap, <- wrap_succ, IHc, wrap_succ.
      f_equal. lia.
    + apply Z.eqb_neq in E. rewrite IHn in E |- *.
      assert (Hdiv : (Z.of_nat (S k) + 255) / 256 = (Z.of_nat k + 255) / 256)
        by (Z.div_mod_to_equations; lia).
      split; [Z.div_mod_to_equations; lia|].
      now rewrite Hdiv.
Qed.

(** C9: from the initialised stream ([numleft = 0]) and after any number
    [k] of [irand32] calls, [numleft] lies in [[0, 256]] (it is
    [(-k) mod 256]) and the generator has been refilled [ceil (k / 256)]
    times, as its counter [c] shows.  The next call refills exactly once
    when [numleft] is 0, setting it to 256 first, and leaves the generator
    and the block alone otherwise; in both cases it decrements [numleft] by
    one and returns the word of the block at the decremented index. *)
Theorem irand32_stream_invariant (r : irand_state) (s : isaac_state)
    (k : nat) :
  let rk := irand32_iter k (irand_init r s) in
  let call := irand32 rk in
  let refill := isaac_refill (r_s rk) (r_r rk) in
  r_numleft (irand_init r s) = 0
  /\ 0 <= r_numleft rk <= 256
  /\ r_numleft rk = (- Z.of_nat k) mod 256
  /\ wrap (s_c (r_s rk)) = wrap (s_c s + (Z.of_nat k + 255) / 256)
  /\ (r_numleft rk = 0 ->
        snd call = mk_irand (snd refill) 255 (fst refill)
        /\ fst call = word_at (snd refill) 255
        /\ s_c (r_s (snd call)) = wrap (s_c (r_s rk) + 1))
  /\ (r_numleft rk <> 0 ->
        snd call = mk_irand (r_r rk) (r_numleft rk - 1) (r_s rk)
        /\ fst call = word_at (r_r rk) (r_numleft rk - 1))
  /\ r_numleft (snd call)
     = (if r_numleft rk =? 0 then 256 else r_numleft rk) - 1
  /\ fst call = word_at (r_r (snd call)) (r_numleft (snd call)).
Proof.
  intros rk call refill.
  destruct (irand32_iter_counts r s k) as [Hn Hc]. fold rk in Hn, Hc.
  assert (Hrange : 0 <= r_numleft rk <= ISAAC_WORDS).
  { rewrite Hn. change ISAAC_WORDS with 256.
    pose proof (Z.mod_pos_bound (- Z.of_nat k) 256). lia. }
  destruct (irand32_counts rk Hrange) as (Hn' & _ & Hw). fold call in Hn', Hw.
  split; [reflexivity|].
  split; [exact Hrange|].
  split; [exact Hn|].
  split; [exact Hc|].
  split; [|split; [|split; [exact Hn' | exact Hw]]].
  - intros H0. subst call refill. rewrite irand32_refill by exact H0.
    cbn [fst snd r_s]. rewrite isaac_refill_c. repeat split; reflexivity.
  - intros Hne. subst call. change ISAAC_WORDS with 256 in Hrange.
    rewrite irand32_buffered by (change modulus with 4294967296; lia).
    split; reflexivity.
Qed.

Lemma irand_wf_spec (r : irand_state) :
  irand_wf r = true ->
  length (r_r r) = 256%nat /\ all_words (r_r r) = true
  /\ 0 <= r_numleft r <= 256 /\ length (s_mm (r_s r)) = 256%nat.
Proof.
  unfold irand_wf, isaac_wf. rewrite !andb_true_iff.
  rewrite !Nat.eqb_eq, !Z.leb_le.
  change (Z.to_nat ISAAC_WORDS) with 256%nat. change ISAAC_WORDS with 256.
  intuition.
Qed.

Lemma irand_wf_intro (r : irand_state) :
  length (r_r r) = 256%nat -> all_words (r_r r) = true ->
  0 <= r_numleft r <= 256 -> isaac_wf (r_s r) = true ->
  irand_wf r = true.
Proof.
  intros Hlen Hall Hn Hs. unfold irand_wf.
  rewrite Hlen, Hall, Hs. change ISAAC_WORDS with 256.
  rewrite !andb_true_iff, !Z.leb_le. repeat split; try reflexivity; lia.
Qed.

Lemma irand32_word (r : irand_state) :
  irand_wf r = true -> 0 <= fst (irand32 r) < modulus.
Proof.
  intros Hwf. destruct (irand_wf_spec r Hwf) as (Hlen & Hall & Hn & Hmm).
  destruct (Z.eq_dec (r_numleft r) 0) as [E | E].
  - rewrite irand32_refill by exact E. cbn [fst].
    apply (isaac_refill_output_word _ _ 255); [assumption | assumption | lia].
  - rewrite irand32_buffered by (change modulus with 4294967296; lia).
    cbn [fst]. apply all_words_word_at; [assumption | lia].
Qed.

(** [irand32] keeps the stream well formed, so the sampler can be called
    again and again. *)
Lemma irand32_wf (r : irand_state) :
  irand_wf r = true -> irand_wf (snd (irand32 r)) = true.
Proof.
  intros Hwf.
  assert (Hs : isaac_wf (r_s r) = true).
  { unfold irand_wf in Hwf. rewrite !andb_true_iff in Hwf. tauto. }
  destruct (irand_wf_spec r Hwf) as (Hlen & Hall & Hn & Hmm).
  destruct (Z.eq_dec (r_numleft r) 0) as [E | E].
  - rewrite irand32_refill by exact E. rewrite snd_pair.
    destruct (isaac_refill_wf (r_s r) (r_r r) Hs Hlen) as (Hs' & Hlen' & Hall').
    apply irand_wf_intro; cbn [r_r r_numleft r_s]; [assumption .. | lia | assumption].
  - rewrite irand32_buffered by (change modulus with 4294967296; lia).
    rewrite snd_pair.
    apply irand_wf_intro; cbn [r_r r_numleft r_s]; [assumption .. | lia | assumption].
Qed.

(** ** The uniform sampler *)

Lemma filter_all_true {A : Type} (p : A -> bool) (l : list A) :
  Forall (fun x => p x = true) l -> List.filter p l = l.
Proof.
  induction 1 as [|x l Hx _ IH]; [reflexivity|].
  cbn [List.filter]. now rewrite Hx, IH.
Qed.

Lemma filter_all_false {A : Type} (p : A -> bool) (l : list A) :
  Forall (fun x => p x = false) l -> List.filter p l = [].
Proof.
  induction 1 as [|x l Hx _ IH]; [reflexivity|].
  cbn [List.filter]. now rewrite Hx, IH.
Qed.

(** Among the integers [0 .. total - 1], exactly [lim] lie below [lim]. *)
Lemma count_below (lim total : Z) :
  0 <= lim <= total ->
  Z.of_nat (length (List.filter (fun x => x <? lim) (seqZ 0 total))) = lim.
Proof.
  intros H.
  replace total with (lim + (total - lim)) by lia.
  rewrite seqZ_app by lia.
  rewrite List.filter_app, length_app.
  rewrite filter_all_true, filter_all_false.
  - rewrite length_seqZ. cbn [length]. lia.
  - apply Forall_seqZ. intros x Hx. apply Z.ltb_ge. lia.
  - apply Forall_seqZ. intros x Hx. apply Z.ltb_lt. lia.
Qed.

Lemma neg32_pos (n : Z) : 0 < n < modulus -> neg32 n = modulus - n.
Proof.
  intros H. unfold neg32, wrap.
  replace (- n) with (modulus - n + (-1) * modulus) by lia.
  rewrite Z.mod_add by (unfold modulus; lia).
  apply Z.mod_small. lia.
Qed.

Lemma irand_lim_spec (n : Z) :
  0 < n < modulus -> irand_lim n = (2 ^ 32 - n) mod n.
Proof. intros H. unfold irand_lim. now rewrite neg32_pos. Qed.




Lemma irand32_iter_shift (k : nat) (r : irand_state) :
  irand32_iter k (snd (irand32 r)) = irand32_iter (S k) r.
Proof.
  induction k as [|k IH]; [reflexivity|].
  rewrite irand32_iter_S, IH. now rewrite <- irand32_iter_S.
Qed.

Lemma irand32_nth_shift (k : nat) (r : irand_state) :
  irand32_nth k (snd (irand32 r)) = irand32_nth (S k) r.
Proof. unfold irand32_nth. now rewrite irand32_iter_shift. Qed.

(** The rejection loop stops at the first word that reaches [lim]. *)
Lemma irand_draw_first (lim : Z) (k : nat) :
  forall (fuel : nat) (r : irand_state),
    (k < fuel)%nat ->
    (forall j : nat, (j < k)%nat -> irand32_nth j r < lim) ->
    lim <= irand32_nth k r ->
    irand_draw fuel lim r = Some (irand32_nth k r, irand32_iter (S k) r).
Proof.
  induction k as [|k IH]; intros fuel r Hfuel Hlow Hk;
    (destruct fuel as [|fuel]; [lia|]); cbn [irand_draw].
  - unfold irand32_nth in Hk. cbn [irand32_iter] in Hk.
    unfold irand32_nth. cbn [irand32_iter].
    destruct (irand32 r) as [x r'] eqn:E. cbn [fst snd] in *.
    destruct (x <? lim) eqn:El; [apply Z.ltb_lt in El; lia | reflexivity].
  - pose proof (Hlow 0%nat ltac:(lia)) as H0.
    unfold irand32_nth in H0. cbn [irand32_iter] in H0.
    rewrite <- irand32_nth_shift, <- irand32_iter_shift.
    rewrite <- irand32_nth_shift in Hk.
    assert (Hlow' : forall j : nat, (j < k)%nat ->
                      irand32_nth j (snd (irand32 r)) < lim).
    { intros j Hj. rewrite irand32_nth_shift. apply Hlow. lia. }
    destruct (irand32 r) as [x r'] eqn:E. cbn [fst snd] in *.
    destruct (x <? lim) eqn:El; [|apply Z.ltb_ge in El; lia].
    apply IH; [lia | exact Hlow' | exact Hk].
Qed.

(** C5: [irand_mod] with a 32-bit [n] answers in [[0, n]].  For
    [n = 0xFFFFFFFF] it hands back the next word as it is, with no test.
    Otherwise, with [m = n + 1] and [lim = (2^32 - m) mod m], if the first
    [k] words drawn are below [lim] and the next one is not, it returns that
    word modulo [m], having consumed [k + 1] words. *)
Theorem irand_mod_result (r : irand_state) (n : Z) :
  0 <= n < 2 ^ 32 ->
  irand_wf r = true ->
  (n = 2 ^ 32 - 1 -> forall fuel : nat, irand_mod fuel r n = Some (irand32 r))
  /\ (n < 2 ^ 32 - 1 ->
        let m := n + 1 in
        let lim := (2 ^ 32 - m) mod m in
        forall k fuel : nat,
          (k < fuel)%nat ->
          (forall j : nat, (j < k)%nat -> irand32_nth j r < lim) ->
          lim <= irand32_nth k r ->
          irand_mod fuel r n
          = Some (irand32_nth k r mod m, irand32_iter (S k) r))
  /\ (forall (fuel : nat) (v : Z) (r' : irand_state),
        irand_mod fuel r n = Some (v, r') -> 0 <= v <= n).
Proof.
  intros Hn Hwf. split; [|split].
  - intros -> fuel. reflexivity.
  - intros Hlt m lim k fuel Hfuel Hlow Hk. unfold irand_mod.
    replace (wrap (n + 1)) with m
      by (symmetry; apply wrap_small; change modulus with (2 ^ 32); lia).
    destruct (m =? 0) eqn:E; [apply Z.eqb_eq in E; lia|].
    rewrite irand_lim_spec by (change modulus with (2 ^ 32); lia).
    fold lim. now rewrite (irand_draw_first lim k fuel r Hfuel Hlow Hk).
  - intros fuel v r' H. unfold irand_mod in H.
    destruct (wrap (n + 1) =? 0) eqn:E.
    + apply Z.eqb_eq in E. apply some_eq in H.
      pose proof (irand32_word r Hwf) as Hword.
      rewrite H in Hword. cbn [fst] in Hword.
      assert (n = 2 ^ 32 - 1).
      { destruct (Z.eq_dec n (2 ^ 32 - 1)) as [|Hne]; [assumption|].
        rewrite wrap_small in E by (change modulus with (2 ^ 32); lia). lia. }
      change modulus with (2 ^ 32) in Hword. lia.
    + apply Z.eqb_neq in E.
      assert (Hw : wrap (n + 1) = n + 1).
      { destruct (Z.eq_dec n (2 ^ 32 - 1)) as [-> | Hne];
          [now elim E|].
        apply wrap_small. change modulus with (2 ^ 32). lia. }
      rewrite Hw in H.
      destruct (irand_draw fuel (irand_lim (n + 1)) r) as [[x r1]|];
        [|discriminate].
      apply some_eq, pair_eq in H. destruct H as [<- _].
      pose proof (Z.mod_pos_bound x (n + 1)). lia.
Qed.

Lemma irand_mod_result_witness :
  (0 <= 9 < 2 ^ 32 /\ irand_wf fresh_stream = true)
  /\ irand_mod 1 fresh_stream 9
     = Some (irand32_nth 0 fresh_stream mod 10, irand32_iter 1 fresh_stream).
Proof.
  split; [split; [lia | vm_compute; reflexivity]|].
  destruct (irand_mod_result fresh_stream 9) as (_ & H & _);
    [lia | vm_compute; reflexivity |].
  apply (H ltac:(lia) 0%nat 1%nat); [lia | intros j Hj; lia |].
  vm_compute. discriminate.
Defined.

Lemma irand_lim_power_of_two (e : Z) :
  0 <= e <= 31 -> irand_lim (2 ^ e) = 0.
Proof.
  intros He.
  assert (Hpow : 2 ^ 32 = 2 ^ (32 - e) * 2 ^ e).
  { rewrite <- Z.pow_add_r by lia. f_equal. lia. }
  assert (Hbound : 0 < 2 ^ e < 2 ^ 32).
  { split; [apply Z.pow_pos_nonneg; lia|].
    apply Z.pow_lt_mono_r; lia. }
  rewrite irand_lim_spec by (change modulus with (2 ^ 32); exact Hbound).
  rewrite Hpow.
  replace (2 ^ (32 - e) * 2 ^ e - 2 ^ e) with ((2 ^ (32 - e) - 1) * 2 ^ e)
    by ring.
  apply Z.mod_mul. lia.
Qed.

(** C10: when [n + 1] is a power of two [2^e] with [e <= 31], the threshold
    of [irand_mod] is 0, no word is thrown away, and the call consumes
    exactly one word, which it returns modulo [2^e]; [irand_mod] with
    [n = 0] returns 0 after consuming one word. *)
Theorem irand_mod_power_of_two (r : irand_state) (e : Z) (fuel : nat) :
  0 <= e <= 31 ->
  irand_wf r = true ->
  let n := 2 ^ e - 1 in
  irand_lim (wrap (n + 1)) = 0
  /\ (forall x : Z, 0 <= x -> sampler_rejects n x = false)
  /\ irand_mod (S fuel) r n = Some (fst (irand32 r) mod 2 ^ e, snd (irand32 r))
  /\ irand_mod (S fuel) r 0 = Some (0, snd (irand32 r)).
Proof.
  intros He Hwf n.
  assert (Hbound : 0 < 2 ^ e < 2 ^ 32).
  { split; [apply Z.pow_pos_nonneg; lia|].
    apply Z.pow_lt_mono_r; lia. }
  assert (Hw : wrap (n + 1) = 2 ^ e).
  { subst n. replace (2 ^ e - 1 + 1) with (2 ^ e) by lia.
    apply wrap_small. change modulus with (2 ^ 32). lia. }
  pose proof (irand32_word r Hwf) as Hword.
  assert (Hone : forall m : Z, wrap (m - 1 + 1) = m -> m <> 0 ->
            irand_lim m = 0 ->
            irand_mod (S fuel) r (m - 1)
            = Some (fst (irand32 r) mod m, snd (irand32 r))).
  { intros m Hm Hm0 Hlim. unfold irand_mod. rewrite Hm.
    destruct (m =? 0) eqn:E; [apply Z.eqb_eq in E; contradiction|].
    rewrite Hlim. cbn [irand_draw].
    destruct (irand32 r) as [x r1]. cbn [fst snd] in *.
    destruct (x <? 0) eqn:Ex; [apply Z.ltb_lt in Ex; lia | reflexivity]. }
  split; [rewrite Hw; now apply irand_lim_power_of_two|].
  split; [|split].
  - intros x Hx. unfold sampler_rejects. rewrite Hw.
    destruct (2 ^ e =? 0); [reflexivity|].
    rewrite irand_lim_power_of_two by exact He.
    apply Z.ltb_ge. exact Hx.
  - subst n. apply Hone.
    + replace (2 ^ e - 1 + 1) with (2 ^ e) by lia.
      apply wrap_small. change modulus with (2 ^ 32). lia.
    + lia.
    + now apply irand_lim_power_of_two.
  - pose proof (Hone 1 eq_refl ltac:(lia) eq_refl) as H1.
    change (1 - 1) with 0 in H1. rewrite H1. now rewrite Z.mod_1_r.
Qed.

Lemma irand_mod_power_of_two_witness :
  (0 <= 3 <= 31 /\ irand_wf fresh_stream = true)
  /\ irand_mod 1 fresh_stream 7
     = Some (fst (irand32 fresh_stream) mod 8, snd (irand32 fresh_stream))
  /\ irand_mod 1 fresh_stream 0 = Some (0, snd (irand32 fresh_stream)).
Proof.
  split; [split; [lia | vm_compute; reflexivity]|].
  destruct (irand_mod_power_of_two fresh_stream 3 0) as (_ & _ & H7 & H0);
    [lia | vm_compute; reflexivity |].
  split; [exact H7 | exact H0].
Defined.

(** ** More on the mixing pass *)

Lemma in_word_add32 (x y : Z) : in_word (add32 x y).
Proof. apply wrap_range. Qed.

Lemma in_word_shl32 (x n : Z) : in_word (shl32 x n).
Proof. apply wrap_range. Qed.

Lemma in_word_shr32 (x n : Z) : in_word x -> 0 <= n -> in_word (shr32 x n).
Proof.
  intros [H0 H1] Hn. unfold in_word, shr32.
  rewrite Z.shiftr_div_pow2 by exact Hn.
  assert (0 < 2 ^ n) by (apply Z.pow_pos_nonneg; lia).
  split; [apply Z.div_pos; lia|].
  apply Z.le_lt_trans with x; [|exact H1].
  apply Z.div_le_upper_bound; nia.
Qed.

Lemma in_word_high_bits (x n : Z) :
  in_word x -> 32 <= n -> Z.testbit x n = false.
Proof.
  intros Hx Hn. rewrite <- (Z.mod_small x (2 ^ 32)) by exact Hx.
  apply Z.mod_pow2_bits_high. lia.
Qed.

Lemma in_word_bits (x : Z) :
  0 <= x -> (forall n : Z, 32 <= n -> Z.testbit x n = false) -> in_word x.
Proof.
  intros H0 Hbits. unfold in_word. change modulus with (2 ^ 32).
  replace x with (x mod 2 ^ 32); [apply Z.mod_pos_bound; lia|].
  apply Z.bits_inj'. intros n Hn.
  destruct (Z.lt_ge_cases n 32) as [Hlt | Hge].
  - apply Z.mod_pow2_bits_low. lia.
  - rewrite Z.mod_pow2_bits_high by lia. symmetry. now apply Hbits.
Qed.

Lemma in_word_xor32 (x y : Z) : in_word x -> in_word y -> in_word (xor32 x y).
Proof.
  intros Hx Hy. apply in_word_bits.
  - apply Z.lxor_nonneg. unfold in_word in *. lia.
  - intros n Hn. unfold xor32. rewrite Z.lxor_spec.
    now rewrite !in_word_high_bits by assumption.
Qed.

Lemma mix_words (p : acc8) : acc8_words p -> acc8_words (mix p).
Proof.
  destruct p as [[[[[[[a b] c] d] e] f] g] h].
  intros (Ha & Hb & Hc & Hd & He & Hf & Hg & Hh).
  unfold mix. cbv zeta. unfold acc8_words.
  repeat split;
    repeat first
      [ assumption | apply in_word_add32 | apply in_word_shl32
      | apply in_word_xor32 | apply in_word_shr32 | lia ].
Qed.

Lemma acc8_words_list (p : acc8) :
  acc8_words p -> all_words (acc8_to_list p) = true.
Proof.
  destruct p as [[[[[[[a b] c] d] e] f] g] h].
  intros (Ha & Hb & Hc & Hd & He & Hf & Hg & Hh).
  unfold all_words. cbn [acc8_to_list forallb].
  rewrite !(proj2 (is_word_spec _)) by assumption. reflexivity.
Qed.

Lemma all_words_app (l1 l2 : list Z) :
  all_words (l1 ++ l2) = all_words l1 && all_words l2.
Proof. unfold all_words. apply List.forallb_app. Qed.

(** Whatever goes in, a chained pass produces 32-bit words only. *)
Lemma mix_chain_words (n : nat) :
  forall (p : acc8) (l : list Z),
    length l = (8 * n)%nat ->
    all_words (snd (mix_chain p l)) = true
    /\ ((0 < n)%nat -> acc8_words (fst (mix_chain p l))).
Proof.
  induction n as [|n IH]; intros p l Hlen.
  - destruct l; [|discriminate]. split; [reflexivity | lia].
  - destruct l as [|x0 [|x1 [|x2 [|x3 [|x4 [|x5 [|x6 [|x7 rest]]]]]]]];
      try (simpl in Hlen; lia).
    destruct p as [[[[[[[a b] c] d] e] f] g] h].
    cbn [mix_chain].
    assert (Hmix : acc8_words
                     (mix (add32 a x0, add32 b x1, add32 c x2, add32 d x3,
                           add32 e x4, add32 f x5, add32 g x6, add32 h x7))).
    { apply mix_words. repeat split; apply wrap_range. }
    destruct (mix _) as [[[[[[[a' b'] c'] d'] e'] f'] g'] h'].
    destruct (IH (a', b', c', d', e', f', g', h') rest) as [Hw Hp];
      [cbn [length] in Hlen; lia|].
    destruct n as [|n].
    + destruct rest; [|cbn [length] in Hlen; lia].
      cbn [mix_chain fst snd]. rewrite app_nil_r.
      split; [now apply acc8_words_list | intros _; exact Hmix].
    + destruct (mix_chain _ rest) as [q out]. cbn [fst snd] in *.
      split; [|intros _; apply Hp; lia].
      rewrite all_words_app, Hw, acc8_words_list by exact Hmix. reflexivity.
Qed.

Lemma isaac_mix_body_buffer (spre srest pre rest : list Z) (p : acc8)
    (x0 x1 x2 x3 x4 x5 x6 x7 y0 y1 y2 y3 y4 y5 y6 y7 : Z) :
  length spre = length pre ->
  isaac_mix_body
    (SeedBuffer (spre ++ x0 :: x1 :: x2 :: x3 :: x4 :: x5 :: x6 :: x7 :: srest))
    (Z.of_nat (length pre))
    (p, pre ++ y0 :: y1 :: y2 :: y3 :: y4 :: y5 :: y6 :: y7 :: rest)
  = let '(a, b, c, d, e, f, g, h) := p in
    let p' := mix (add32 a x0, add32 b x1, add32 c x2, add32 d x3,
                   add32 e x4, add32 f x5, add32 g x6, add32 h x7) in
    (p', pre ++ acc8_to_list p' ++ rest).
Proof.
  intros Hlen.
  destruct p as [[[[[[[a b] c] d] e] f] g] h].
  unfold isaac_mix_body. cbn [seed_words].
  rewrite (word_at_app_at spre _ _ 0), (word_at_app_at spre _ _ 1),
    (word_at_app_at spre _ _ 2), (word_at_app_at spre _ _ 3),
    (word_at_app_at spre _ _ 4), (word_at_app_at spre _ _ 5),
    (word_at_app_at spre _ _ 6), (word_at_app_at spre _ _ 7) by lia.
  cbn [lookup_total list_lookup_total].
  destruct (mix _) as [[[[[[[a' b'] c'] d'] e'] f'] g'] h'].
  rewrite (store_at_app_at pre _ _ _ 0) by lia.
  rewrite (store_at_app_at pre _ _ _ 1) by lia.
  rewrite (store_at_app_at pre _ _ _ 2) by lia.
  rewrite (store_at_app_at pre _ _ _ 3) by lia.
  rewrite (store_at_app_at pre _ _ _ 4) by lia.
  rewrite (store_at_app_at pre _ _ _ 5) by lia.
  rewrite (store_at_app_at pre _ _ _ 6) by lia.
  rewrite (store_at_app_at pre _ _ _ 7) by lia.
  reflexivity.
Qed.

Lemma isaac_mix_loop_buffer (n : nat) :
  forall (spre srest pre rest : list Z) (p : acc8),
    length spre = length pre ->
    length srest = (8 * n)%nat ->
    length rest = (8 * n)%nat ->
    loop_iter n (Z.of_nat (length pre)) 8
      (isaac_mix_body (SeedBuffer (spre ++ srest))) (p, pre ++ rest)
    = (fst (mix_chain p srest), pre ++ snd (mix_chain p srest)).
Proof.
  induction n as [|n IH]; intros spre srest pre rest p Hpre Hs Hr.
  - destruct srest; [|discriminate]. destruct rest; [|discriminate].
    reflexivity.
  - destruct srest as [|x0 [|x1 [|x2 [|x3 [|x4 [|x5 [|x6 [|x7 srest]]]]]]]];
      try (simpl in Hs; lia).
    destruct rest as [|y0 [|y1 [|y2 [|y3 [|y4 [|y5 [|y6 [|y7 rest]]]]]]]];
      try (simpl in Hr; lia).
    rewrite loop_iter_S, isaac_mix_body_buffer by exact Hpre.
    destruct p as [[[[[[[a b] c] d] e] f] g] h].
    cbn [mix_chain]. cbv zeta.
    destruct (mix _) as [[[[[[[a' b'] c'] d'] e'] f'] g'] h'].
    set (l8 := acc8_to_list (a', b', c', d', e', f', g', h')).
    rewrite (app_assoc pre l8 rest).
    replace (Z.of_nat (length pre) + 8) with (Z.of_nat (length (pre ++ l8)))
      by (rewrite length_app; subst l8; cbn [acc8_to_list length]; lia).
    change (spre ++ x0 :: x1 :: x2 :: x3 :: x4 :: x5 :: x6 :: x7 :: srest)
      with (spre ++ [x0; x1; x2; x3; x4; x5; x6; x7] ++ srest).
    rewrite (app_assoc spre _ srest).
    rewrite IH;
      [ | rewrite !length_app; subst l8; cbn [acc8_to_list length]; lia
        | cbn [length] in Hs; lia | cbn [length] in Hr; lia ].
    destruct (mix_chain _ srest) as [q out]. cbn [fst snd].
    now rewrite <- app_assoc.
Qed.

(** [isaac_mix] reading its seed from a separate array of 256 words. *)
Lemma isaac_mix_buffer_chain (s : isaac_state) (seed : list Z) :
  length (s_mm s) = 256%nat ->
  length (s_iv s) = 8%nat ->
  length seed = 256%nat ->
  isaac_mix s (SeedBuffer seed)
  = mk_isaac (snd (mix_chain (load_iv (s_iv s)) seed))
      (acc8_to_list (fst (mix_chain (load_iv (s_iv s)) seed)))
      (s_a s) (s_b s) (s_c s).
Proof.
  intros Hmm Hiv Hseed. unfold isaac_mix.
  rewrite (for_loop_iter _ 8 ISAAC_WORDS ltac:(lia) 32 mix_fuel 0)
    by (first [ right; reflexivity
              | unfold mix_fuel; change (Z.to_nat ISAAC_WORDS) with 256%nat; lia
              | change ISAAC_WORDS with 256; lia ]).
  pose proof (isaac_mix_loop_buffer 32 [] seed [] (s_mm s) (load_iv (s_iv s))
                eq_refl Hseed Hmm) as H.
  change (Z.of_nat (length (@nil Z))) with 0 in H.
  change ([] ++ s_mm s) with (s_mm s) in H.
  change ([] ++ seed) with seed in H.
  rewrite H. cbn [app]. rewrite store_iv_full by assumption. reflexivity.
Qed.

(** The accumulators that a pass leaves behind are the last eight words
    it wrote. *)
Lemma mix_chain_tail (n : nat) :
  forall (p : acc8) (l : list Z),
    length l = (8 * S n)%nat ->
    drop (8 * n) (snd (mix_chain p l)) = acc8_to_list (fst (mix_chain p l)).
Proof.
  induction n as [|n IH]; intros p l Hlen;
    (destruct l as [|x0 [|x1 [|x2 [|x3 [|x4 [|x5 [|x6 [|x7 rest]]]]]]]];
       try (simpl in Hlen; lia));
    destruct p as [[[[[[[a b] c] d] e] f] g] h]; cbn [mix_chain];
    destruct (mix _) as [[[[[[[a' b'] c'] d'] e'] f'] g'] h'].
  - destruct rest; [|cbn [length] in Hlen; lia].
    cbn [mix_chain fst snd]. now rewrite app_nil_r.
  - specialize (IH (a', b', c', d', e', f', g', h') rest).
    destruct (mix_chain _ rest) as [q out]. cbn [fst snd] in *.
    rewrite drop_app_ge by (cbn [acc8_to_list length]; lia).
    cbn [acc8_to_list length].
    replace (8 * S n - 8)%nat with (8 * n)%nat by lia.
    apply IH. cbn [length] in Hlen. lia.
Qed.

(** X1: [isaac_mix (s, s->mm)], which reads its seed through the array it
    is overwriting, gives the same state as [isaac_mix] reading the seed
    from a separate copy of that array: every group of eight words is read
    before it is written. *)
Theorem isaac_mix_in_place (s : isaac_state) :
  length (s_mm s) = 256%nat ->
  length (s_iv s) = 8%nat ->
  isaac_mix s SeedState = isaac_mix s (SeedBuffer (s_mm s)).
Proof.
  intros Hmm Hiv.
  now rewrite isaac_mix_chain, isaac_mix_buffer_chain by assumption.
Qed.

Lemma isaac_mix_in_place_witness :
  (length (s_mm stale_state) = 256%nat /\ length (s_iv stale_state) = 8%nat)
  /\ isaac_mix stale_state SeedState
     = isaac_mix stale_state (SeedBuffer (s_mm stale_state)).
Proof.
  split; [split; reflexivity|].
  apply (isaac_mix_in_place stale_state); reflexivity.
Defined.

(** X2: [isaac_mix] with a separate seed writes all 256 words of the main
    array and the 8 words of [iv] from the old [iv] and the seed alone: the
    old contents of the main array do not matter, the new contents are
    32-bit words of which the last eight are the new [iv], and [a], [b],
    [c] are left as they are. *)
Theorem isaac_mix_buffer_overwrites (s1 s2 : isaac_state) (seed : list Z) :
  length (s_mm s1) = 256%nat ->
  length (s_mm s2) = 256%nat ->
  length (s_iv s1) = 8%nat ->
  length seed = 256%nat ->
  s_iv s2 = s_iv s1 ->
  let s1' := isaac_mix s1 (SeedBuffer seed) in
  let s2' := isaac_mix s2 (SeedBuffer seed) in
  s_mm s2' = s_mm s1' /\ s_iv s2' = s_iv s1'
  /\ length (s_mm s1') = 256%nat /\ length (s_iv s1') = 8%nat
  /\ all_words (s_mm s1') = true
  /\ drop 248 (s_mm s1') = s_iv s1'
  /\ s_a s1' = s_a s1 /\ s_b s1' = s_b s1 /\ s_c s1' = s_c s1.
Proof.
  intros Hmm1 Hmm2 Hiv Hseed Eiv s1' s2'. subst s1' s2'.
  rewrite (isaac_mix_buffer_chain s1), (isaac_mix_buffer_chain s2)
    by (rewrite ?Eiv; assumption).
  rewrite Eiv. cbn [s_mm s_iv s_a s_b s_c].
  destruct (mix_chain_words 32 (load_iv (s_iv s1)) seed Hseed) as [Hw _].
  split; [reflexivity|]. split; [reflexivity|].
  split; [rewrite (mix_chain_length 32) by exact Hseed; exact Hseed|].
  split; [apply length_acc8_to_list|].
  split; [exact Hw|].
  split; [|repeat split; reflexivity].
  apply (mix_chain_tail 31). exact Hseed.
Qed.

Lemma isaac_mix_buffer_overwrites_witness :
  (length (s_mm stale_state) = 256%nat
   /\ length (s_mm fresh_state) = 256%nat
   /\ length (s_iv stale_state) = 8%nat
   /\ length ramp = 256%nat
   /\ s_iv (set_mm stale_state (s_mm fresh_state)) = s_iv stale_state)
  /\ s_mm (isaac_mix (set_mm stale_state (s_mm fresh_state)) (SeedBuffer ramp))
     = s_mm (isaac_mix stale_state (SeedBuffer ramp)).
Proof.
  split; [repeat split; vm_compute; reflexivity|].
  destruct (isaac_mix_buffer_overwrites stale_state
              (set_mm stale_state (s_mm fresh_state)) ramp) as (H & _);
    [vm_compute; reflexivity .. |].
  exact H.
Defined.

(** ** More on accumulating seed material *)

Lemma length_xor_bytes (big_endian : bool) (buf : list byte) :
  forall (mm : list Z) (k : Z),
    length (xor_bytes big_endian mm k buf) = length mm.
Proof.
  induction buf as [|v buf IH]; intros mm k; [reflexivity|].
  cbn [xor_bytes]. rewrite IH. unfold xor_byte_at. apply length_store_at.
Qed.

Lemma set_mm_same (s : isaac_state) : set_mm s (s_mm s) = s.
Proof. now destruct s. Qed.

Lemma set_c_fields (s : isaac_state) (c : Z) :
  s_iv (set_c s c) = s_iv s /\ s_a (set_c s c) = s_a s
  /\ s_b (set_c s c) = s_b s.
Proof. repeat split; reflexivity. Qed.

Lemma set_mm_fields (s : isaac_state) (mm : list Z) :
  s_iv (set_mm s mm) = s_iv s /\ s_a (set_mm s mm) = s_a s
  /\ s_b (set_mm s mm) = s_b s /\ s_c (set_mm s mm) = s_c s.
Proof. repeat split; reflexivity. Qed.

Lemma isaac_mix_shape (s : isaac_state) :
  length (s_mm s) = 256%nat ->
  length (s_iv s) = 8%nat ->
  length (s_mm (isaac_mix s SeedState)) = 256%nat
  /\ length (s_iv (isaac_mix s SeedState)) = 8%nat
  /\ s_a (isaac_mix s SeedState) = s_a s
  /\ s_b (isaac_mix s SeedState) = s_b s
  /\ s_c (isaac_mix s SeedState) = s_c s.
Proof.
  intros Hmm Hiv. rewrite isaac_mix_chain by assumption.
  cbn [s_mm s_iv s_a s_b s_c].
  rewrite (mix_chain_length 32) by exact Hmm.
  rewrite length_acc8_to_list. repeat split; assumption.
Qed.

Lemma seed_block_shape (big_endian : bool) (s : isaac_state)
    (chunk : list byte) :
  length (s_mm s) = 256%nat ->
  length (s_iv s) = 8%nat ->
  let s' := seed_block big_endian s chunk in
  length (s_mm s') = 256%nat /\ length (s_iv s') = 8%nat
  /\ s_a s' = s_a s /\ s_b s' = s_b s /\ s_c s' = 0.
Proof.
  intros Hmm Hiv s'. subst s'. unfold seed_block.
  destruct (isaac_mix_shape
              (set_mm s (xor_bytes big_endian (s_mm s) (s_c s) chunk)))
    as (H1 & H2 & H3 & H4 & _).
  { rewrite s_mm_set_mm, length_xor_bytes. exact Hmm. }
  { exact Hiv. }
  rewrite s_mm_set_c, s_c_set_c.
  destruct (set_c_fields (isaac_mix
              (set_mm s (xor_bytes big_endian (s_mm s) (s_c s) chunk))
              SeedState) 0) as (-> & -> & ->).
  rewrite H3, H4.
  destruct (set_mm_fields s (xor_bytes big_endian (s_mm s) (s_c s) chunk))
    as (_ & -> & -> & _).
  split; [exact H1|]. split; [exact H2|]. repeat split; reflexivity.
Qed.

Lemma seed_full_blocks_step' (fuel : nat) (big_endian : bool)
    (s : isaac_state) (buf : list byte) (avail : Z) :
  avail < buf_size buf ->
  seed_full_blocks (S fuel) big_endian s buf avail
  = seed_full_blocks fuel big_endian
      (seed_block big_endian s (take (Z.to_nat avail) buf))
      (drop (Z.to_nat avail) buf) ISAAC_BYTES.
Proof. intros H. now rewrite seed_full_blocks_step. Qed.

(** More fuel than bytes changes nothing. *)
Lemma seed_full_blocks_fuel (big_endian : bool) (fuel : nat) :
  forall (fuel' : nat) (s : isaac_state) (buf : list byte),
    (length buf <= fuel)%nat -> (length buf <= fuel')%nat ->
    seed_full_blocks fuel big_endian s buf ISAAC_BYTES
    = seed_full_blocks fuel' big_endian s buf ISAAC_BYTES.
Proof.
  induction fuel as [|fuel IH]; intros fuel' s buf H H'.
  - destruct buf; [|cbn [length] in H; lia].
    now rewrite !seed_full_blocks_stop by (cbn; discriminate).
  - destruct (Z.lt_ge_cases ISAAC_BYTES (buf_size buf)) as [Hlt | Hge].
    + destruct fuel' as [|fuel'].
      { unfold buf_size in Hlt. change ISAAC_BYTES with 1024 in Hlt. lia. }
      rewrite !seed_full_blocks_step' by exact Hlt.
      unfold buf_size in Hlt. change ISAAC_BYTES with 1024 in Hlt.
      apply IH; rewrite length_drop; change (Z.to_nat ISAAC_BYTES) with 1024%nat; lia.
    + now rewrite !seed_full_blocks_stop by exact Hge.
Qed.

Lemma seed_full_blocks_shape (big_endian : bool) (fuel : nat) :
  forall (s : isaac_state) (buf : list byte) (avail : Z),
    length (s_mm s) = 256%nat ->
    length (s_iv s) = 8%nat ->
    let res := seed_full_blocks fuel big_endian s buf avail in
    length (s_mm (fst res)) = 256%nat /\ length (s_iv (fst res)) = 8%nat
    /\ s_a (fst res) = s_a s /\ s_b (fst res) = s_b s.
Proof.
  induction fuel as [|fuel IH]; intros s buf avail Hmm Hiv res; subst res.
  - cbn [seed_full_blocks fst]. repeat split; assumption.
  - destruct (Z.lt_ge_cases avail (buf_size buf)) as [Hlt | Hge].
    + rewrite seed_full_blocks_step' by exact Hlt.
      destruct (seed_block_shape big_endian s
                  (take (Z.to_nat avail) buf) Hmm Hiv)
        as (H1 & H2 & H3 & H4 & _).
      destruct (IH _ (drop (Z.to_nat avail) buf) ISAAC_BYTES H1 H2)
        as (I1 & I2 & I3 & I4).
      rewrite I3, I4. repeat split; assumption.
    + rewrite seed_full_blocks_stop by exact Hge. cbn [fst].
      repeat split; assumption.
Qed.

(** What the loop leaves for the final partial block, and where. *)
Lemma seed_full_blocks_rest (big_endian : bool) (fuel : nat) :
  forall (s : isaac_state) (buf : list byte),
    (length buf <= fuel)%nat ->
    let res := seed_full_blocks fuel big_endian s buf ISAAC_BYTES in
    buf_size (snd res)
    = (if buf_size buf =? 0 then 0 else (buf_size buf - 1) mod 1024 + 1)
    /\ (ISAAC_BYTES < buf_size buf -> s_c (fst res) = 0)
    /\ (buf_size buf <= ISAAC_BYTES -> res = (s, buf)).
Proof.
  induction fuel as [|fuel IH]; intros s buf Hlen res; subst res.
  - destruct buf; [|cbn [length] in Hlen; lia].
    cbn [seed_full_blocks fst snd].
    split; [reflexivity|]. split; [|reflexivity].
    intros H. change (1024 < 0) in H. lia.
  - change ISAAC_BYTES with 1024 in *. unfold buf_size in *.
    destruct (Z.lt_ge_cases 1024 (Z.of_nat (length buf))) as [Hlt | Hge].
    + rewrite seed_full_blocks_step' by exact Hlt.
      change (Z.to_nat 1024) with 1024%nat.
      destruct (IH (seed_block big_endian s (take 1024 buf)) (drop 1024 buf))
        as (Hsize & Hc & Hstop); [rewrite length_drop; lia|].
      cbv zeta in *. change ISAAC_BYTES with 1024 in *.
      rewrite length_drop in Hsize, Hc, Hstop.
      split; [|split; [|lia]].
      * rewrite Hsize.
        destruct (Z.of_nat (length buf - 1024) =? 0) eqn:E0;
          [apply Z.eqb_eq in E0; lia|].
        destruct (Z.of_nat (length buf) =? 0) eqn:E1;
          [apply Z.eqb_eq in E1; lia|].
        replace (Z.of_nat (length buf) - 1)
          with (Z.of_nat (length buf - 1024) - 1 + 1 * 1024) by lia.
        now rewrite Z.mod_add by lia.
      * intros _.
        destruct (Z.lt_ge_cases 1024 (Z.of_nat (length buf - 1024)))
          as [Hlt' | Hge'].
        -- now apply Hc.
        -- rewrite Hstop by exact Hge'. cbn [fst].
           unfold seed_block. apply s_c_set_c.
    + rewrite seed_full_blocks_stop by exact Hge. cbn [fst snd].
      split; [|split; [lia | reflexivity]].
      destruct (Z.of_nat (length buf) =? 0) eqn:E1;
        [apply Z.eqb_eq in E1; lia|].
      rewrite Z.mod_small by lia. lia.
Qed.

(** X3: a buffer that fits in what is left of the current block is XORed
    into the main array at the write pointer, nothing is mixed, and the
    write pointer becomes the size of the buffer, wherever it stood before;
    an empty buffer therefore changes nothing but puts the pointer back
    to 0. *)
Theorem isaac_seed_data_within_block (big_endian : bool) (s : isaac_state)
    (buf : list byte) :
  0 <= s_c s <= ISAAC_BYTES ->
  buf_size buf <= ISAAC_BYTES - s_c s ->
  isaac_seed_data big_endian s buf
  = set_c (set_mm s (xor_bytes big_endian (s_mm s) (s_c s) buf))
      (buf_size buf)
  /\ s_c (isaac_seed_data big_endian s buf) = buf_size buf
  /\ s_iv (isaac_seed_data big_endian s buf) = s_iv s
  /\ isaac_seed_data big_endian s [] = set_c s 0.
Proof.
  intros Hc Hfit.
  rewrite (isaac_seed_data_fits big_endian s buf Hc Hfit).
  rewrite s_c_set_c.
  destruct (set_c_fields
              (set_mm s (xor_bytes big_endian (s_mm s) (s_c s) buf))
              (buf_size buf)) as (-> & _).
  destruct (set_mm_fields s (xor_bytes big_endian (s_mm s) (s_c s) buf))
    as (-> & _).
  repeat split.
  rewrite isaac_seed_data_fits;
    [ | exact Hc | change (buf_size []) with 0; lia ].
  cbn [xor_bytes]. now rewrite set_mm_same.
Qed.

Lemma isaac_seed_data_within_block_witness :
  (0 <= s_c fresh_state <= ISAAC_BYTES
   /\ buf_size [x01; x02; x03] <= ISAAC_BYTES - s_c fresh_state)
  /\ s_c (isaac_seed_data false fresh_state [x01; x02; x03]) = 3
  /\ isaac_seed_data false fresh_state [] = set_c fresh_state 0.
Proof.
  split; [split; vm_compute; intuition discriminate|].
  destruct (isaac_seed_data_within_block false fresh_state [x01; x02; x03])
    as (_ & Hc & _ & He).
  - vm_compute. intuition discriminate.
  - vm_compute. discriminate.
  - split; [exact Hc | exact He].
Defined.

Lemma isaac_seed_data_overflow_blocks (big_endian : bool) (s : isaac_state)
    (buf : list byte) :
  0 <= s_c s <= ISAAC_BYTES ->
  ISAAC_BYTES - s_c s < buf_size buf ->
  seed_full_blocks (S (length buf)) big_endian s buf
    ((ISAAC_BYTES - s_c s) mod size_modulus)
  = seed_full_blocks (length buf) big_endian
      (seed_block big_endian s (take (Z.to_nat (ISAAC_BYTES - s_c s)) buf))
      (drop (Z.to_nat (ISAAC_BYTES - s_c s)) buf) ISAAC_BYTES.
Proof.
  intros Hc Hover. rewrite avail_small by exact Hc.
  now rewrite seed_full_blocks_step' by exact Hover.
Qed.

(** X4: seeding keeps the write pointer inside the array.  From a pointer
    in [[0, 1024]], a call leaves it in [[0, 1024]] again: at the size of
    the buffer when the buffer fits, and otherwise at the number of bytes,
    between 1 and 1024, that overflow the last full block; the final
    partial block is written inside the array.  The arrays keep their
    sizes, and [a] and [b] are never touched. *)
Theorem isaac_seed_data_cursor (big_endian : bool) (s : isaac_state)
    (buf : list byte) :
  length (s_mm s) = 256%nat ->
  length (s_iv s) = 8%nat ->
  0 <= s_c s <= ISAAC_BYTES ->
  let s' := isaac_seed_data big_endian s buf in
  let res := seed_full_blocks (S (length buf)) big_endian s buf
               ((ISAAC_BYTES - s_c s) mod size_modulus) in
  0 <= s_c s' <= ISAAC_BYTES
  /\ s_c s' = (if buf_size buf <=? ISAAC_BYTES - s_c s
               then buf_size buf
               else (buf_size buf - (ISAAC_BYTES - s_c s) - 1) mod 1024 + 1)
  /\ s_c (fst res) + buf_size (snd res) <= ISAAC_BYTES
  /\ length (s_mm s') = 256%nat /\ length (s_iv s') = 8%nat
  /\ s_a s' = s_a s /\ s_b s' = s_b s.
Proof.
  intros Hmm Hiv Hc s' res.
  assert (Hshape : length (s_mm (fst res)) = 256%nat
                   /\ length (s_iv (fst res)) = 8%nat
                   /\ s_a (fst res) = s_a s /\ s_b (fst res) = s_b s).
  { subst res. now apply seed_full_blocks_shape. }
  assert (Hs' : s' = set_c (set_mm (fst res)
                       (xor_bytes big_endian (s_mm (fst res))
                          (s_c (fst res)) (snd res)))
                  (wrap (buf_size (snd res)))).
  { subst s' res. apply isaac_seed_data_eq. }
  assert (Hres : buf_size (snd res)
                 = (if buf_size buf <=? ISAAC_BYTES - s_c s
                    then buf_size buf
                    else (buf_size buf - (ISAAC_BYTES - s_c s) - 1) mod 1024 + 1)
                 /\ s_c (fst res) + buf_size (snd res) <= ISAAC_BYTES).
  { subst res. destruct (buf_size buf <=? ISAAC_BYTES - s_c s) eqn:E.
    - apply Z.leb_le in E. rewrite avail_small by exact Hc.
      rewrite seed_full_blocks_stop by exact E. cbn [fst snd]. lia.
    - apply Z.leb_gt in E.
      rewrite isaac_seed_data_overflow_blocks by assumption.
      set (n := Z.to_nat (ISAAC_BYTES - s_c s)).
      destruct (seed_full_blocks_rest big_endian (length buf)
                  (seed_block big_endian s (take n buf)) (drop n buf))
        as (Hsize & Hzero & Hstop); [rewrite length_drop; lia|].
      cbv zeta in Hsize, Hzero, Hstop.
      assert (Hdrop : buf_size (drop n buf)
                      = buf_size buf - (ISAAC_BYTES - s_c s)).
      { unfold buf_size in *. rewrite length_drop. subst n. lia. }
      rewrite Hdrop in Hsize, Hzero, Hstop.
      destruct (buf_size buf - (ISAAC_BYTES - s_c s) =? 0) eqn:E0;
        [apply Z.eqb_eq in E0; lia|].
      split; [exact Hsize|].
      rewrite Hsize.
      pose proof (Z.mod_pos_bound
                    (buf_size buf - (ISAAC_BYTES - s_c s) - 1) 1024
                    ltac:(lia)) as Hmod.
      change ISAAC_BYTES with 1024 in *.
      destruct (Z.lt_ge_cases 1024 (buf_size buf - (1024 - s_c s)))
        as [Hlt | Hge].
      + rewrite Hzero by exact Hlt. lia.
      + rewrite Hstop by exact Hge. cbn [fst].
        unfold seed_block. rewrite s_c_set_c. lia. }
  destruct Hres as [Hsize Hin]. destruct Hshape as (S1 & S2 & S3 & S4).
  assert (Hword : 0 <= buf_size (snd res) <= ISAAC_BYTES).
  { change ISAAC_BYTES with 1024 in *.
    assert (0 <= buf_size (snd res)) by (unfold buf_size; lia).
    assert (0 <= s_c (fst res) \/ s_c (fst res) < 0) as [|Hneg] by lia; [lia|].
    exfalso. subst res.
    destruct (buf_size buf <=? 1024 - s_c s) eqn:E.
    - apply Z.leb_le in E.
      rewrite avail_small in Hneg by (change ISAAC_BYTES with 1024; exact Hc).
      rewrite seed_full_blocks_stop in Hneg
        by (change ISAAC_BYTES with 1024; exact E).
      cbn [fst] in Hneg. lia.
    - apply Z.leb_gt in E.
      rewrite isaac_seed_data_overflow_blocks in Hneg
        by (change ISAAC_BYTES with 1024; assumption).
      set (n := Z.to_nat (ISAAC_BYTES - s_c s)) in Hneg.
      destruct (seed_full_blocks_rest big_endian (length buf)
                  (seed_block big_endian s (take n buf)) (drop n buf))
        as (_ & Hzero & Hstop); [rewrite length_drop; lia|].
      cbv zeta in Hzero, Hstop. change ISAAC_BYTES with 1024 in *.
      destruct (Z.lt_ge_cases 1024 (buf_size (drop n buf))) as [Hlt | Hge].
      + rewrite Hzero in Hneg by exact Hlt. lia.
      + rewrite Hstop in Hneg by exact Hge. cbn [fst] in Hneg.
        unfold seed_block in Hneg. rewrite s_c_set_c in Hneg. lia. }
  rewrite Hs'. rewrite s_c_set_c, s_mm_set_c, s_mm_set_mm.
  rewrite length_xor_bytes.
  destruct (set_c_fields
              (set_mm (fst res)
                 (xor_bytes big_endian (s_mm (fst res)) (s_c (fst res))
                    (snd res)))
              (wrap (buf_size (snd res)))) as (-> & -> & ->).
  destruct (set_mm_fields (fst res)
              (xor_bytes big_endian (s_mm (fst res)) (s_c (fst res))
                 (snd res))) as (-> & -> & -> & _).
  rewrite wrap_small
    by (change modulus with (2 ^ 32); change ISAAC_BYTES with 1024 in *; lia).
  rewrite <- Hsize.
  split; [exact Hword|]. split; [reflexivity|]. split; [exact Hin|].
  split; [exact S1|]. split; [exact S2|]. split; [exact S3 | exact S4].
Qed.

Lemma isaac_seed_data_cursor_witness :
  (length (s_mm fresh_state) = 256%nat /\ length (s_iv fresh_state) = 8%nat
   /\ 0 <= s_c fresh_state <= ISAAC_BYTES)
  /\ 0 <= s_c (isaac_seed_data true fresh_state (replicate 1500 xff))
     <= ISAAC_BYTES
  /\ s_c (isaac_seed_data true fresh_state (replicate 1500 xff))
     = (if buf_size (replicate 1500 xff) <=? ISAAC_BYTES - s_c fresh_state
        then buf_size (replicate 1500 xff)
        else (buf_size (replicate 1500 xff)
              - (ISAAC_BYTES - s_c fresh_state) - 1) mod 1024 + 1).
Proof.
  split; [repeat split; vm_compute; congruence|].
  destruct (isaac_seed_data_cursor true fresh_state (replicate 1500 xff))
    as (H1 & H2 & _).
  - vm_compute. reflexivity.
  - vm_compute. reflexivity.
  - vm_compute. intuition discriminate.
  - split; [exact H1 | exact H2].
Defined.

Lemma isaac_seed_data_from_start (big_endian : bool) (s : isaac_state)
    (buf : list byte) (fuel : nat) :
  s_c s = 0 ->
  (length buf <= fuel)%nat ->
  isaac_seed_data big_endian s buf = seed_from_start big_endian fuel s buf.
Proof.
  intros Hc Hfuel. rewrite isaac_seed_data_eq, Hc.
  change ((ISAAC_BYTES - 0) mod size_modulus) with ISAAC_BYTES.
  unfold seed_from_start.
  now rewrite (seed_full_blocks_fuel big_endian (S (length buf)) fuel)
    by lia.
Qed.

Lemma seed_block_append (big_endian : bool) (s : isaac_state)
    (b1 t : list byte) :
  s_c s = 0 ->
  seed_block big_endian
    (set_c (set_mm s (xor_bytes big_endian (s_mm s) 0 b1)) (buf_size b1)) t
  = seed_block big_endian s (b1 ++ t).
Proof.
  intros Hc. unfold seed_block.
  rewrite s_mm_set_c, s_mm_set_mm, s_c_set_c, Hc.
  rewrite set_mm_over, isaac_mix_set_c, set_c_twice.
  now rewrite xor_bytes_app.
Qed.

Lemma seed_from_start_small (big_endian : bool) (fuel : nat)
    (s : isaac_state) (buf : list byte) :
  s_c s = 0 ->
  buf_size buf <= ISAAC_BYTES ->
  seed_from_start big_endian fuel s buf
  = set_c (set_mm s (xor_bytes big_endian (s_mm s) 0 buf)) (buf_size buf).
Proof.
  intros Hc Hsmall. unfold seed_from_start.
  rewrite seed_full_blocks_stop by exact Hsmall.
  rewrite fst_pair, snd_pair, Hc.
  rewrite wrap_small; [reflexivity|].
  unfold buf_size in *. change ISAAC_BYTES with 1024 in *.
  change modulus with (2 ^ 32). lia.
Qed.

Lemma seed_from_start_large (big_endian : bool) (fuel : nat)
    (s : isaac_state) (buf : list byte) :
  (length buf <= fuel)%nat ->
  ISAAC_BYTES < buf_size buf ->
  seed_from_start big_endian fuel s buf
  = seed_from_start big_endian (length (drop 1024 buf))
      (seed_block big_endian s (take 1024 buf)) (drop 1024 buf).
Proof.
  intros Hfuel Hlarge. unfold seed_from_start.
  rewrite (seed_full_blocks_fuel big_endian fuel (S (length buf))) by lia.
  rewrite seed_full_blocks_step' by exact Hlarge.
  change (Z.to_nat ISAAC_BYTES) with 1024%nat.
  now rewrite (seed_full_blocks_fuel big_endian (length buf)
                 (length (drop 1024 buf)))
    by (rewrite ?length_drop; lia).
Qed.

Lemma seed_split_base (big_endian : bool) (s : isaac_state)
    (b1 b2 : list byte) (f1 : nat) :
  s_c s = 0 ->
  buf_size b1 <= ISAAC_BYTES ->
  ISAAC_BYTES < buf_size b1 + buf_size b2 ->
  isaac_seed_data big_endian (seed_from_start big_endian f1 s b1) b2
  = seed_from_start big_endian (length (b1 ++ b2)) s (b1 ++ b2).
Proof.
  intros Hc Hsmall Hover.
  rewrite seed_from_start_small by assumption.
  set (s1 := set_c (set_mm s (xor_bytes big_endian (s_mm s) 0 b1))
               (buf_size b1)).
  assert (Hc1 : s_c s1 = buf_size b1) by reflexivity.
  assert (Hpos : 0 <= buf_size b1) by (unfold buf_size; lia).
  rewrite isaac_seed_data_eq.
  rewrite isaac_seed_data_overflow_blocks by (rewrite Hc1; lia).
  rewrite Hc1.
  rewrite (seed_from_start_large big_endian _ s (b1 ++ b2))
    by (unfold buf_size in *; rewrite ?length_app; lia).
  unfold seed_from_start.
  assert (Hn : Z.to_nat (ISAAC_BYTES - buf_size b1)
               = (1024 - length b1)%nat).
  { unfold buf_size. change ISAAC_BYTES with 1024. lia. }
  rewrite Hn.
  assert (Hlen : (length b1 <= 1024)%nat).
  { unfold buf_size in Hsmall. change ISAAC_BYTES with 1024 in Hsmall. lia. }
  rewrite take_app_ge, drop_app_ge by exact Hlen.
  subst s1. rewrite seed_block_append by exact Hc.
  now rewrite (seed_full_blocks_fuel big_endian (length b2)
                 (length (drop (1024 - length b1) b2)))
    by (rewrite ?length_drop; lia).
Qed.

Lemma seed_split_from_start (big_endian : bool) (n : nat) :
  forall (s : isaac_state) (b1 b2 : list byte),
    (length b1 <= n)%nat ->
    s_c s = 0 ->
    1024 < (if buf_size b1 =? 0 then 0 else (buf_size b1 - 1) mod 1024 + 1)
           + buf_size b2 ->
    isaac_seed_data big_endian
      (seed_from_start big_endian (length b1) s b1) b2
    = seed_from_start big_endian (length (b1 ++ b2)) s (b1 ++ b2).
Proof.
  induction n as [|n IH]; intros s b1 b2 Hn Hc Hover;
    (destruct (Z.lt_ge_cases ISAAC_BYTES (buf_size b1)) as [Hlarge | Hsmall];
     [ | apply seed_split_base; [exact Hc | exact Hsmall |];
         change ISAAC_BYTES with 1024 in *;
         destruct (buf_size b1 =? 0) eqn:E;
           [ apply Z.eqb_eq in E; lia
           | apply Z.eqb_neq in E; unfold buf_size in *;
             rewrite Z.mod_small in Hover by lia; lia ] ]).
  - unfold buf_size in Hlarge. change ISAAC_BYTES with 1024 in Hlarge. lia.
  - assert (Hlen : (1024 < length b1)%nat).
    { unfold buf_size in Hlarge. change ISAAC_BYTES with 1024 in Hlarge. lia. }
    rewrite (seed_from_start_large big_endian _ s b1) by (lia || exact Hlarge).
    rewrite (seed_from_start_large big_endian _ s (b1 ++ b2))
      by (unfold buf_size in *; rewrite ?length_app; lia).
    rewrite take_app_le, drop_app_le by lia.
    apply IH.
    + rewrite length_drop. lia.
    + unfold seed_block. apply s_c_set_c.
    + unfold buf_size in *. rewrite length_drop.
      destruct (Z.of_nat (length b1) =? 0) eqn:E;
        [apply Z.eqb_eq in E; lia|].
      destruct (Z.of_nat (length b1 - 1024) =? 0) eqn:E';
        [apply Z.eqb_eq in E'; lia|].
      replace (Z.of_nat (length b1) - 1)
        with (Z.of_nat (length b1 - 1024) - 1 + 1 * 1024) in Hover by lia.
      now rewrite Z.mod_add in Hover by lia.
Qed.

(** X5: when seeding starts with the write pointer at 0, a buffer may be
    cut in two at any place where the second piece overflows the block
    that the first piece left open: feeding the two pieces one after the
    other gives the same state as feeding their concatenation.  (It is the
    second piece fitting in the block that loses the pointer.) *)
Theorem isaac_seed_data_split_overflow (big_endian : bool) (s : isaac_state)
    (b1 b2 : list byte) :
  s_c s = 0 ->
  ISAAC_BYTES < s_c (isaac_seed_data big_endian s b1) + buf_size b2 ->
  isaac_seed_data big_endian (isaac_seed_data big_endian s b1) b2
  = isaac_seed_data big_endian s (b1 ++ b2).
Proof.
  intros Hc Hover.
  rewrite (isaac_seed_data_from_start big_endian s b1 (length b1)) in *
    by (exact Hc || lia).
  rewrite (isaac_seed_data_from_start big_endian s (b1 ++ b2)
             (length (b1 ++ b2))) by (exact Hc || lia).
  apply (seed_split_from_start big_endian (length b1)); [lia | exact Hc |].
  destruct (seed_full_blocks_rest big_endian (length b1) s b1 ltac:(lia))
    as (Hsize & _).
  cbv zeta in Hsize. rewrite <- Hsize.
  unfold seed_from_start in Hover. rewrite s_c_set_c in Hover.
  assert (Hb : 0 <= buf_size
                      (snd (seed_full_blocks (length b1) big_endian s b1
                              ISAAC_BYTES)) <= 1024).
  { rewrite Hsize. destruct (buf_size b1 =? 0); [lia|].
    pose proof (Z.mod_pos_bound (buf_size b1 - 1) 1024 ltac:(lia)). lia. }
  rewrite wrap_small in Hover by (change modulus with (2 ^ 32); lia).
  exact Hover.
Qed.

Lemma isaac_seed_data_split_overflow_witness :
  (s_c fresh_state = 0
   /\ ISAAC_BYTES
      < s_c (isaac_seed_data false fresh_state (replicate 1500 x5a))
        + buf_size (replicate 700 xa5))
  /\ isaac_seed_data false
       (isaac_seed_data false fresh_state (replicate 1500 x5a))
       (replicate 700 xa5)
     = isaac_seed_data false fresh_state
         (replicate 1500 x5a ++ replicate 700 xa5).
Proof.
  split; [split; vm_compute; reflexivity|].
  apply isaac_seed_data_split_overflow; vm_compute; reflexivity.
Defined.

(** ** Gathering the seed *)

Lemma xor_byte_at_comm (big_endian : bool) (mm : list Z) (k1 k2 : Z)
    (v1 v2 : byte) :
  xor_byte_at big_endian (xor_byte_at big_endian mm k1 v1) k2 v2
  = xor_byte_at big_endian (xor_byte_at big_endian mm k2 v2) k1 v1.
Proof.
  unfold xor_byte_at, store_at, word_at.
  set (i1 := Z.to_nat (k1 / sizeof_uint32)).
  set (i2 := Z.to_nat (k2 / sizeof_uint32)).
  set (x1 := Z.shiftl (Z.of_N (Byte.to_N v1)) (byte_shift big_endian k1)).
  set (x2 := Z.shiftl (Z.of_N (Byte.to_N v2)) (byte_shift big_endian k2)).
  destruct (decide (i1 = i2)) as [E | Hne].
  - rewrite <- E. destruct (Nat.lt_ge_cases i1 (length mm)) as [Hlt | Hge].
    + rewrite !list_lookup_total_insert_eq by exact Hlt.
      rewrite !list_insert_insert_eq.
      f_equal. rewrite !Z.lxor_assoc. f_equal. apply Z.lxor_comm.
    + rewrite !(list_insert_ge mm) by exact Hge. reflexivity.
  - rewrite (list_lookup_total_insert_ne mm i1 i2) by exact Hne.
    rewrite (list_lookup_total_insert_ne mm i2 i1) by (intros E; now apply Hne).
    apply list_insert_insert_ne. intros E. now apply Hne.
Qed.

Lemma xor_bytes_byte_comm (big_endian : bool) (buf : list byte) :
  forall (mm : list Z) (k k' : Z) (v : byte),
    xor_byte_at big_endian (xor_bytes big_endian mm k buf) k' v
    = xor_bytes big_endian (xor_byte_at big_endian mm k' v) k buf.
Proof.
  induction buf as [|w buf IH]; intros mm k k' v; [reflexivity|].
  cbn [xor_bytes]. rewrite IH. f_equal. apply xor_byte_at_comm.
Qed.

(** Folding in two buffers commutes, wherever they go. *)
Lemma xor_bytes_comm (big_endian : bool) (b2 : list byte) :
  forall (b1 : list byte) (mm : list Z) (k1 k2 : Z),
    xor_bytes big_endian (xor_bytes big_endian mm k1 b1) k2 b2
    = xor_bytes big_endian (xor_bytes big_endian mm k2 b2) k1 b1.
Proof.
  induction b2 as [|v b2 IH]; intros b1 mm k1 k2; [reflexivity|].
  cbn [xor_bytes]. rewrite xor_bytes_byte_comm. apply IH.
Qed.

Lemma seed_device_bytes (big_endian : bool) (s : isaac_state) (env : entropy) :
  seed_device big_endian s env
  = if has_device env
    then isaac_seed_data big_endian s (device_bytes env)
    else s.
Proof.
  unfold seed_device, has_device, device_bytes.
  destruct (e_urandom env); [reflexivity|].
  destruct (e_random env); reflexivity.
Qed.

(** Two buffers in a row that both fit. *)
Lemma isaac_seed_data_fits_twice (big_endian : bool) (s : isaac_state)
    (b1 b2 : list byte) :
  0 <= s_c s <= ISAAC_BYTES ->
  buf_size b1 <= ISAAC_BYTES - s_c s ->
  buf_size b2 <= ISAAC_BYTES - buf_size b1 ->
  isaac_seed_data big_endian (isaac_seed_data big_endian s b1) b2
  = set_c (set_mm s
             (xor_bytes big_endian
                (xor_bytes big_endian (s_mm s) (s_c s) b1) (buf_size b1) b2))
      (buf_size b2).
Proof.
  intros Hc H1 H2.
  rewrite (isaac_seed_data_fits big_endian s b1) by assumption.
  assert (Hpos : 0 <= buf_size b1) by (unfold buf_size; lia).
  rewrite isaac_seed_data_fits; rewrite ?s_c_set_c; [|lia|exact H2].
  rewrite s_mm_set_c, s_mm_set_mm, set_mm_over, set_c_twice. reflexivity.
Qed.

Lemma seed_pieces_nil (big_endian : bool) (s : isaac_state) :
  seed_pieces big_endian s [] = s.
Proof. reflexivity. Qed.

Lemma seed_pieces_cons (big_endian : bool) (s : isaac_state)
    (p : list byte) (ps : list (list byte)) :
  seed_pieces big_endian s (p :: ps)
  = seed_pieces big_endian (isaac_seed_data big_endian s p) ps.
Proof. reflexivity. Qed.

Lemma seed_pieces_layout_from (big_endian : bool) (pieces : list (list byte)) :
  forall (s : isaac_state) (mm : list Z) (k : Z),
    0 <= k <= ISAAC_BYTES ->
    pieces_fit k pieces = true ->
    seed_pieces big_endian (set_c (set_mm s mm) k) pieces
    = set_c (set_mm s (seed_layout big_endian mm k pieces))
        (seed_cursor k pieces).
Proof.
  induction pieces as [|p ps IH]; intros s mm k Hk Hfit.
  - reflexivity.
  - cbn [pieces_fit] in Hfit. apply andb_true_iff in Hfit.
    destruct Hfit as [Hp Hps]. apply Z.leb_le in Hp.
    rewrite seed_pieces_cons.
    rewrite isaac_seed_data_fits; rewrite ?s_c_set_c; [|exact Hk|exact Hp].
    rewrite s_mm_set_c, s_mm_set_mm, set_mm_over, set_c_twice.
    cbn [seed_layout seed_cursor]. apply IH; [|exact Hps].
    unfold buf_size in *. change ISAAC_BYTES with 1024 in *. lia.
Qed.

Lemma seed_pieces_fit_layout (big_endian : bool) (s : isaac_state)
    (pieces : list (list byte)) :
  0 <= s_c s <= ISAAC_BYTES ->
  pieces_fit (s_c s) pieces = true ->
  seed_pieces big_endian s pieces
  = set_c (set_mm s (seed_layout big_endian (s_mm s) (s_c s) pieces))
      (seed_cursor (s_c s) pieces).
Proof.
  intros Hc Hfit.
  rewrite <- (seed_pieces_layout_from big_endian pieces s (s_mm s) (s_c s))
    by assumption.
  f_equal. now destruct s.
Qed.

(** X6: in a run of [isaac_seed_data] calls whose buffers each fit in the
    block, the first buffer is folded in at the write pointer and every
    later one at the offset equal to the size of the buffer just before
    it, not at the running total; nothing is mixed, and the write pointer
    ends at the size of the last buffer. *)
Theorem seed_pieces_layout (big_endian : bool) (s : isaac_state)
    (pieces : list (list byte)) :
  0 <= s_c s <= ISAAC_BYTES ->
  pieces_fit (s_c s) pieces = true ->
  seed_pieces big_endian s pieces
  = set_c (set_mm s (seed_layout big_endian (s_mm s) (s_c s) pieces))
      (seed_cursor (s_c s) pieces).
Proof.
  intros Hc Hfit.
  rewrite <- (seed_pieces_layout_from big_endian pieces s (s_mm s) (s_c s))
    by assumption.
  f_equal. now destruct s.
Qed.

Lemma seed_pieces_layout_witness :
  (0 <= s_c fresh_state <= ISAAC_BYTES
   /\ pieces_fit (s_c fresh_state) [[x01; x02]; [x10; x20]; [x0f]] = true)
  /\ seed_pieces false fresh_state [[x01; x02]; [x10; x20]; [x0f]]
     = set_c (set_mm fresh_state
                (seed_layout false (s_mm fresh_state) (s_c fresh_state)
                   [[x01; x02]; [x10; x20]; [x0f]]))
         (seed_cursor (s_c fresh_state) [[x01; x02]; [x10; x20]; [x0f]]).
Proof.
  split; [split; vm_compute; intuition discriminate|].
  apply seed_pieces_layout; vm_compute; intuition discriminate.
Defined.

Lemma isaac_seed_eq (big_endian : bool) (s : isaac_state) (env : entropy) :
  isaac_seed big_endian s env
  = isaac_seed_finish
      (seed_device big_endian
         (isaac_seed_data big_endian
            (seed_pieces big_endian (isaac_seed_start s)
               [e_pid env; e_ppid env; e_uid env; e_gid env])
            (e_time env))
         env).
Proof.
  unfold isaac_seed. cbv zeta.
  now rewrite !seed_pieces_cons, seed_pieces_nil.
Qed.

Lemma seed_device_swap_uid_gid (big_endian : bool) (s : isaac_state)
    (env : entropy) :
  seed_device big_endian s (swap_uid_gid env) = seed_device big_endian s env.
Proof. reflexivity. Qed.

Lemma seed_device_swap_ppid_uid (big_endian : bool) (s : isaac_state)
    (env : entropy) :
  seed_device big_endian s (swap_ppid_uid env) = seed_device big_endian s env.
Proof. reflexivity. Qed.

Lemma s_c_isaac_seed_start (s : isaac_state) : s_c (isaac_seed_start s) = 0.
Proof. reflexivity. Qed.

(** X7: when the process id, parent process id, user id and group id have
    one and the same size (four bytes on the usual platforms), the last
    three are all XORed into the same bytes of the main array, so
    [isaac_seed] cannot tell them apart: exchanging the user id with the
    group id, or the parent process id with the user id, yields the same
    generator. *)
Theorem isaac_seed_ids_collide (big_endian : bool) (s : isaac_state)
    (env : entropy) :
  buf_size (e_ppid env) = buf_size (e_pid env) ->
  buf_size (e_uid env) = buf_size (e_pid env) ->
  buf_size (e_gid env) = buf_size (e_pid env) ->
  2 * buf_size (e_pid env) <= ISAAC_BYTES ->
  isaac_seed big_endian s (swap_uid_gid env) = isaac_seed big_endian s env
  /\ isaac_seed big_endian s (swap_ppid_uid env) = isaac_seed big_endian s env.
Proof.
  intros Hppid Huid Hgid Hsize.
  assert (Hpos : 0 <= buf_size (e_pid env)) by (unfold buf_size; lia).
  assert (Hfit : forall p2 p3 p4 : list byte,
            buf_size p2 = buf_size (e_pid env) ->
            buf_size p3 = buf_size (e_pid env) ->
            buf_size p4 = buf_size (e_pid env) ->
            pieces_fit (s_c (isaac_seed_start s)) [e_pid env; p2; p3; p4]
            = true).
  { intros p2 p3 p4 H2 H3 H4. rewrite s_c_isaac_seed_start.
    cbn [pieces_fit]. rewrite H2, H3, H4, !andb_true_iff, !Z.leb_le. lia. }
  rewrite !isaac_seed_eq.
  rewrite seed_device_swap_uid_gid, seed_device_swap_ppid_uid.
  cbn [swap_uid_gid swap_ppid_uid e_pid e_ppid e_uid e_gid e_time].
  rewrite !seed_pieces_fit_layout
    by (first [ rewrite s_c_isaac_seed_start; change ISAAC_BYTES with 1024; lia
              | apply Hfit; assumption ]).
  cbn [seed_layout seed_cursor]. rewrite Hppid, Huid, Hgid.
  split.
  - do 5 f_equal. apply xor_bytes_comm.
  - do 6 f_equal. apply xor_bytes_comm.
Qed.

Lemma isaac_seed_ids_collide_witness :
  (buf_size (e_ppid sample_entropy) = buf_size (e_pid sample_entropy)
   /\ buf_size (e_uid sample_entropy) = buf_size (e_pid sample_entropy)
   /\ buf_size (e_gid sample_entropy) = buf_size (e_pid sample_entropy)
   /\ 2 * buf_size (e_pid sample_entropy) <= ISAAC_BYTES)
  /\ isaac_seed false stale_state (swap_uid_gid sample_entropy)
     = isaac_seed false stale_state sample_entropy.
Proof.
  split; [repeat split; vm_compute; congruence|].
  destruct (isaac_seed_ids_collide false stale_state sample_entropy)
    as [H _]; [vm_compute; congruence ..|].
  exact H.
Defined.

(** ** The stream as a sequence of blocks *)

Lemma refill_block_S (j : nat) (s : isaac_state) (out : list Z) :
  refill_block (S j) s out
  = isaac_refill (fst (refill_block j s out)) (snd (refill_block j s out)).
Proof. cbn [refill_block]. now destruct (refill_block j s out). Qed.

Lemma irand32_iter_add (k j : nat) (r : irand_state) :
  irand32_iter (j + k) r = irand32_iter j (irand32_iter k r).
Proof.
  induction j as [|j IH]; [reflexivity|].
  cbn [Nat.add]. now rewrite !irand32_iter_S, IH.
Qed.

(** Consuming one block from an exhausted stream. *)
Lemma irand32_iter_block (r : irand_state) (k : nat) :
  r_numleft r = 0 ->
  (k < 256)%nat ->
  irand32_iter (S k) r
  = mk_irand (snd (isaac_refill (r_s r) (r_r r))) (255 - Z.of_nat k)
      (fst (isaac_refill (r_s r) (r_r r))).
Proof.
  intros H0. induction k as [|k IH]; intros Hk.
  - rewrite irand32_iter_S. cbn [irand32_iter].
    rewrite irand32_refill by exact H0. now rewrite snd_pair.
  - rewrite irand32_iter_S, IH by lia.
    rewrite irand32_buffered
      by (cbn [r_numleft]; change modulus with 4294967296; lia).
    rewrite snd_pair. cbn [r_r r_numleft r_s]. f_equal. lia.
Qed.

Lemma irand32_nth_block (r : irand_state) (k : nat) :
  r_numleft r = 0 ->
  (k < 256)%nat ->
  irand32_nth k r
  = word_at (snd (isaac_refill (r_s r) (r_r r))) (255 - Z.of_nat k).
Proof.
  intros H0 Hk. unfold irand32_nth. destruct k as [|k].
  - cbn [irand32_iter]. rewrite irand32_refill by exact H0.
    now rewrite fst_pair.
  - rewrite irand32_iter_block by (exact H0 || lia).
    rewrite irand32_buffered
      by (cbn [r_numleft]; change modulus with 4294967296; lia).
    rewrite fst_pair. cbn [r_r r_numleft]. f_equal. lia.
Qed.

Lemma irand32_iter_blocks (r : irand_state) (s : isaac_state) (j : nat) :
  irand32_iter (256 * S j) (irand_init r s)
  = mk_irand (snd (refill_block j s (r_r r))) 0
      (fst (refill_block j s (r_r r))).
Proof.
  induction j as [|j IH].
  - change (256 * 1)%nat with (S 255).
    rewrite irand32_iter_block by (reflexivity || lia). reflexivity.
  - replace (256 * S (S j))%nat with (S 255 + 256 * S j)%nat by lia.
    rewrite irand32_iter_add, IH.
    rewrite irand32_iter_block by (reflexivity || lia).
    cbn [r_r r_s]. now rewrite refill_block_S.
Qed.

(** X8: the stream of [irand32] is the sequence of refill blocks, each read
    from its last word to its first: call number [256 j + k] (from 0, with
    [k < 256]) returns word [255 - k] of block [j], and after it the stream
    holds that block with [255 - k] words left and the generator as refill
    number [j + 1] left it. *)
Theorem irand32_reads_blocks_backwards (r : irand_state) (s : isaac_state)
    (j k : nat) :
  (k < 256)%nat ->
  let block := refill_block j s (r_r r) in
  irand32_nth (256 * j + k) (irand_init r s)
  = word_at (snd block) (255 - Z.of_nat k)
  /\ irand32_iter (256 * j + S k) (irand_init r s)
     = mk_irand (snd block) (255 - Z.of_nat k) (fst block).
Proof.
  intros Hk block. subst block.
  assert (Hstart : exists r0 : irand_state,
            irand32_iter (256 * j) (irand_init r s) = r0
            /\ r_numleft r0 = 0
            /\ isaac_refill (r_s r0) (r_r r0) = refill_block j s (r_r r)).
  { destruct j as [|j].
    - exists (irand_init r s). repeat split; reflexivity.
    - eexists. split; [apply irand32_iter_blocks|].
      split; [reflexivity|]. cbn [r_r r_s]. now rewrite refill_block_S. }
  destruct Hstart as (r0 & Hr0 & Hn0 & Hblock).
  unfold irand32_nth.
  rewrite (Nat.add_comm (256 * j) k), (Nat.add_comm (256 * j) (S k)).
  rewrite !irand32_iter_add, Hr0.
  fold (irand32_nth k r0).
  rewrite irand32_nth_block, irand32_iter_block by assumption.
  now rewrite Hblock.
Qed.

Lemma irand32_reads_blocks_backwards_witness :
  (3 < 256)%nat
  /\ irand32_nth (256 * 2 + 3) (irand_init fresh_stream seeded_state)
     = word_at (snd (refill_block 2 seeded_state (r_r fresh_stream)))
         (255 - Z.of_nat 3).
Proof.
  split; [lia|].
  destruct (irand32_reads_blocks_backwards fresh_stream seeded_state 2 3)
    as [H _]; [lia|].
  exact H.
Defined.

(** ** From seeding to the stream: what is ready when *)

Lemma length_copy_iv (dst : list Z) :
  length dst = 8%nat -> length (copy_iv dst) = 8%nat.
Proof.
  intros Hlen.
  destruct dst as [|x0 [|x1 [|x2 [|x3 [|x4 [|x5 [|x6 [|x7 [|x8 l]]]]]]]]];
    try discriminate Hlen.
  reflexivity.
Qed.

Lemma isaac_mix_words (s : isaac_state) :
  length (s_mm s) = 256%nat ->
  length (s_iv s) = 8%nat ->
  all_words (s_mm (isaac_mix s SeedState)) = true
  /\ all_words (s_iv (isaac_mix s SeedState)) = true.
Proof.
  intros Hmm Hiv. rewrite isaac_mix_chain by assumption. cbn [s_mm s_iv].
  destruct (mix_chain_words 32 (load_iv (s_iv s)) (s_mm s) Hmm) as [Hw Hp].
  split; [exact Hw|]. apply acc8_words_list, Hp. lia.
Qed.

Lemma isaac_seed_finish_wf (s : isaac_state) :
  length (s_mm s) = 256%nat ->
  length (s_iv s) = 8%nat ->
  is_word (s_a s) = true ->
  is_word (s_b s) = true ->
  isaac_wf (isaac_seed_finish s) = true
  /\ s_a (isaac_seed_finish s) = s_a s
  /\ s_b (isaac_seed_finish s) = s_b s
  /\ s_c (isaac_seed_finish s) = 0.
Proof.
  intros Hmm Hiv Ha Hb. unfold isaac_seed_finish. cbv zeta.
  destruct (isaac_mix_shape s Hmm Hiv) as (Hmm1 & Hiv1 & Ha1 & Hb1 & _).
  destruct (isaac_mix_shape _ Hmm1 Hiv1) as (Hmm2 & Hiv2 & Ha2 & Hb2 & _).
  destruct (isaac_mix_words _ Hmm1 Hiv1) as [Hw Hwiv].
  destruct (set_c_fields (isaac_mix (isaac_mix s SeedState) SeedState) 0)
    as (Eiv & Ea & Eb).
  rewrite s_c_set_c, Ea, Eb, Ha2, Hb2, Ha1, Hb1.
  split; [|repeat split; reflexivity].
  apply isaac_wf_spec.
  rewrite s_c_set_c, s_mm_set_c, Eiv, Ea, Eb, Ha2, Hb2, Ha1, Hb1.
  split; [exact Hmm2|]. split; [exact Hiv2|]. split; [exact Hw|].
  split; [exact Hwiv|]. split; [exact Ha|]. split; [exact Hb | reflexivity].
Qed.

Lemma isaac_seed_data_lengths (big_endian : bool) (s : isaac_state)
    (buf : list byte) :
  length (s_mm s) = 256%nat ->
  length (s_iv s) = 8%nat ->
  length (s_mm (isaac_seed_data big_endian s buf)) = 256%nat
  /\ length (s_iv (isaac_seed_data big_endian s buf)) = 8%nat
  /\ s_a (isaac_seed_data big_endian s buf) = s_a s
  /\ s_b (isaac_seed_data big_endian s buf) = s_b s.
Proof.
  intros Hmm Hiv. rewrite isaac_seed_data_eq. cbv zeta.
  set (res := seed_full_blocks _ _ _ _ _).
  destruct (seed_full_blocks_shape big_endian (S (length buf)) s buf
              ((ISAAC_BYTES - s_c s) mod size_modulus) Hmm Hiv)
    as (S1 & S2 & S3 & S4).
  fold res in S1, S2, S3, S4.
  rewrite s_mm_set_c, s_mm_set_mm, length_xor_bytes.
  destruct (set_c_fields
              (set_mm (fst res)
                 (xor_bytes big_endian (s_mm (fst res)) (s_c (fst res))
                    (snd res)))
              (wrap (buf_size (snd res)))) as (-> & -> & ->).
  destruct (set_mm_fields (fst res)
              (xor_bytes big_endian (s_mm (fst res)) (s_c (fst res))
                 (snd res))) as (-> & -> & -> & _).
  split; [exact S1|]. split; [exact S2|]. split; [exact S3 | exact S4].
Qed.

Lemma seed_device_lengths (big_endian : bool) (s : isaac_state)
    (env : entropy) :
  length (s_mm s) = 256%nat ->
  length (s_iv s) = 8%nat ->
  length (s_mm (seed_device big_endian s env)) = 256%nat
  /\ length (s_iv (seed_device big_endian s env)) = 8%nat
  /\ s_a (seed_device big_endian s env) = s_a s
  /\ s_b (seed_device big_endian s env) = s_b s.
Proof.
  intros Hmm Hiv. unfold seed_device.
  destruct (e_urandom env) as [buf|];
    [now apply isaac_seed_data_lengths|].
  destruct (e_random env) as [buf|];
    [now apply isaac_seed_data_lengths|].
  repeat split; assumption.
Qed.

Lemma irand32_iter_wf (r : irand_state) (k : nat) :
  irand_wf r = true -> irand_wf (irand32_iter k r) = true.
Proof.
  intros Hwf. induction k as [|k IH]; [exact Hwf|].
  rewrite irand32_iter_S. now apply irand32_wf.
Qed.

(** X9: [isaac_seed] always leaves a generator that is ready for use,
    whatever the environment supplies and whether or not a random device
    could be opened: both arrays have their full size and hold 32-bit
    words, and [a], [b] and [c] are 0.  A stream initialised on it is well
    formed and stays so under any number of [irand32] calls, each of which
    returns a 32-bit word. *)
Theorem isaac_seed_ready (big_endian : bool) (s : isaac_state)
    (env : entropy) (r : irand_state) :
  length (s_iv s) = 8%nat ->
  length (r_r r) = 256%nat ->
  all_words (r_r r) = true ->
  let g := isaac_seed big_endian s env in
  isaac_wf g = true
  /\ s_a g = 0 /\ s_b g = 0 /\ s_c g = 0
  /\ irand_wf (irand_init r g) = true
  /\ (forall k : nat,
        irand_wf (irand32_iter k (irand_init r g)) = true
        /\ 0 <= irand32_nth k (irand_init r g) < 2 ^ 32).
Proof.
  intros Hiv Hr Hall g.
  assert (Hg : isaac_wf g = true /\ s_a g = 0 /\ s_b g = 0 /\ s_c g = 0).
  { subst g. unfold isaac_seed. cbv zeta.
    set (s0 := isaac_seed_start s).
    assert (H0 : length (s_mm s0) = 256%nat /\ length (s_iv s0) = 8%nat
                 /\ s_a s0 = 0 /\ s_b s0 = 0).
    { subst s0. unfold isaac_seed_start. cbn [s_mm s_iv s_a s_b].
      split; [reflexivity|]. split; [now apply length_copy_iv|].
      split; reflexivity. }
    destruct H0 as (M0 & I0 & A0 & B0).
    destruct (isaac_seed_data_lengths big_endian s0 (e_pid env) M0 I0)
      as (M1 & I1 & A1 & B1).
    set (s1 := isaac_seed_data big_endian s0 (e_pid env)) in *.
    destruct (isaac_seed_data_lengths big_endian s1 (e_ppid env) M1 I1)
      as (M2 & I2 & A2 & B2).
    set (s2 := isaac_seed_data big_endian s1 (e_ppid env)) in *.
    destruct (isaac_seed_data_lengths big_endian s2 (e_uid env) M2 I2)
      as (M3 & I3 & A3 & B3).
    set (s3 := isaac_seed_data big_endian s2 (e_uid env)) in *.
    destruct (isaac_seed_data_lengths big_endian s3 (e_gid env) M3 I3)
      as (M4 & I4 & A4 & B4).
    set (s4 := isaac_seed_data big_endian s3 (e_gid env)) in *.
    destruct (isaac_seed_data_lengths big_endian s4 (e_time env) M4 I4)
      as (M5 & I5 & A5 & B5).
    set (s5 := isaac_seed_data big_endian s4 (e_time env)) in *.
    destruct (seed_device_lengths big_endian s5 env M5 I5)
      as (M6 & I6 & A6 & B6).
    set (s6 := seed_device big_endian s5 env) in *.
    assert (Ea : s_a s6 = 0) by congruence.
    assert (Eb : s_b s6 = 0) by congruence.
    destruct (isaac_seed_finish_wf s6 M6 I6) as (Hwf & Ha & Hb & Hc);
      [now rewrite Ea | now rewrite Eb |].
    rewrite Ha, Hb, Hc, Ea, Eb. repeat split; [exact Hwf | reflexivity ..]. }
  destruct Hg as (Hwf & Ha & Hb & Hc).
  assert (Hinit : irand_wf (irand_init r g) = true).
  { apply irand_wf_intro; cbn [irand_init r_r r_numleft r_s];
      [exact Hr | exact Hall | lia | exact Hwf]. }
  do 4 (split; [assumption|]). split; [exact Hinit|].
  intros k. split; [now apply irand32_iter_wf|].
  unfold irand32_nth. apply irand32_word. now apply irand32_iter_wf.
Qed.

Lemma isaac_seed_ready_witness :
  (length (s_iv stale_state) = 8%nat
   /\ length (replicate 256 0xdeadbeef : list Z) = 256%nat
   /\ all_words (replicate 256 0xdeadbeef) = true)
  /\ isaac_wf (isaac_seed true stale_state
                 (mk_entropy [x01; x02] [] [x03] [x04] [x05; x06] None None))
     = true.
Proof.
  split; [repeat split; reflexivity|].
  destruct (isaac_seed_ready true stale_state
              (mk_entropy [x01; x02] [] [x03] [x04] [x05; x06] None None)
              (mk_irand (replicate 256 0xdeadbeef) 7 stale_state))
    as [H _]; [reflexivity ..|].
  exact H.
Defined.

(** ** What the stream depends on *)

Lemma isaac_refill_reads (s1 s2 : isaac_state) (r1 r2 : list Z) :
  length r1 = 256%nat -> length r2 = 256%nat ->
  s_mm s1 = s_mm s2 -> s_a s1 = s_a s2 -> s_b s1 = s_b s2 ->
  s_c s1 = s_c s2 ->
  snd (isaac_refill s1 r1) = snd (isaac_refill s2 r2)
  /\ length (snd (isaac_refill s1 r1)) = 256%nat
  /\ s_mm (fst (isaac_refill s1 r1)) = s_mm (fst (isaac_refill s2 r2))
  /\ s_a (fst (isaac_refill s1 r1)) = s_a (fst (isaac_refill s2 r2))
  /\ s_b (fst (isaac_refill s1 r1)) = s_b (fst (isaac_refill s2 r2))
  /\ s_c (fst (isaac_refill s1 r1)) = s_c (fst (isaac_refill s2 r2)).
Proof.
  intros Hr1 Hr2 Emm Ea Eb Ec.
  rewrite !isaac_refill_prefix. cbv zeta. cbn [fst snd s_mm s_a s_b s_c].
  destruct (refill_prefix_reads (refill_entry s1 r1) (refill_entry s2 r2))
    with (k := 256%nat) as (Ha & Hb & Hm & Ht).
  - exact Ea.
  - cbn [refill_entry v_b]. now rewrite Eb, Ec.
  - exact Emm.
  - cbn [refill_entry v_r]. now rewrite Hr1, Hr2.
  - cbn [refill_entry v_r]. lia.
  - rewrite !take_ge in Ht
      by (rewrite length_r_refill_prefix; cbn [refill_entry v_r]; lia).
    rewrite Ha, Hb, Hm, Ht, Ec, length_r_refill_prefix.
    cbn [refill_entry v_r]. repeat split; [exact Hr2].
Qed.

Lemma irand32_agree (ra rb : irand_state) :
  streams_agree ra rb ->
  fst (irand32 ra) = fst (irand32 rb)
  /\ streams_agree (snd (irand32 ra)) (snd (irand32 rb)).
Proof.
  intros (Hn & Hrange & La & Lb & Hbuf & Emm & Ea & Eb & Ec).
  destruct (Z.eq_dec (r_numleft ra) 0) as [E | E].
  - rewrite (irand32_refill ra) by exact E.
    rewrite (irand32_refill rb) by congruence.
    rewrite !fst_pair, !snd_pair.
    destruct (isaac_refill_reads (r_s ra) (r_s rb) (r_r ra) (r_r rb)
                La Lb Emm Ea Eb Ec) as (Ho & Hlen & Hm & Ha & Hb & Hc).
    split; [now rewrite Ho|].
    unfold streams_agree. cbn [r_r r_numleft r_s].
    split; [reflexivity|]. split; [lia|]. split; [exact Hlen|].
    split; [now rewrite <- Ho|]. split; [intros _; exact Ho|].
    split; [exact Hm|]. split; [exact Ha|]. split; [exact Hb | exact Hc].
  - rewrite (irand32_buffered ra) by (change modulus with 4294967296; lia).
    rewrite (irand32_buffered rb) by (change modulus with 4294967296; lia).
    rewrite !fst_pair, !snd_pair.
    split; [now rewrite Hbuf, Hn by exact E|].
    unfold streams_agree. cbn [r_r r_numleft r_s].
    split; [now rewrite Hn|]. split; [lia|]. split; [exact La|].
    split; [exact Lb|]. split; [intros _; now apply Hbuf|].
    split; [exact Emm|]. split; [exact Ea|]. split; [exact Eb | exact Ec].
Qed.

Lemma irand32_iter_agree (ra rb : irand_state) (k : nat) :
  streams_agree ra rb ->
  streams_agree (irand32_iter k ra) (irand32_iter k rb).
Proof.
  intros H. induction k as [|k IH]; [exact H|].
  rewrite !irand32_iter_S. now apply irand32_agree.
Qed.

(** X10: the words of a stream are determined by [mm], [a], [b] and [c]
    of its generator alone.  Two streams initialised on generators that
    agree on these four return the same word at every call, whatever their
    blocks held before the first call and whatever the two [iv] are. *)
Theorem irand32_stream_determined (r1 r2 : irand_state)
    (s1 s2 : isaac_state) (k : nat) :
  length (r_r r1) = 256%nat ->
  length (r_r r2) = 256%nat ->
  s_mm s1 = s_mm s2 -> s_a s1 = s_a s2 -> s_b s1 = s_b s2 ->
  s_c s1 = s_c s2 ->
  irand32_nth k (irand_init r1 s1) = irand32_nth k (irand_init r2 s2).
Proof.
  intros L1 L2 Emm Ea Eb Ec.
  assert (H0 : streams_agree (irand_init r1 s1) (irand_init r2 s2)).
  { unfold streams_agree. cbn [irand_init r_r r_numleft r_s].
    split; [reflexivity|]. split; [lia|]. split; [exact L1|].
    split; [exact L2|]. split; [intros H; now contradiction H|].
    split; [exact Emm|]. split; [exact Ea|]. split; [exact Eb | exact Ec]. }
  unfold irand32_nth.
  now apply irand32_agree, irand32_iter_agree.
Qed.

Lemma irand32_stream_determined_witness :
  (length (replicate 256 0 : list Z) = 256%nat
   /\ length ramp = 256%nat
   /\ s_mm seeded_state = s_mm (mk_isaac (s_mm seeded_state) [] 0 0 0)
   /\ s_a seeded_state = 0 /\ s_b seeded_state = 0 /\ s_c seeded_state = 0)
  /\ irand32_nth 300 (irand_init (mk_irand (replicate 256 0) 9 stale_state)
                        seeded_state)
     = irand32_nth 300 (irand_init (mk_irand ramp 0 fresh_state)
                          (mk_isaac (s_mm seeded_state) [] 0 0 0)).
Proof.
  split; [repeat apply conj; vm_compute; reflexivity|].
  apply irand32_stream_determined; vm_compute; reflexivity.
Defined.

(** ** More on the uniform sampler *)

Lemma irand_draw_inv (lim : Z) (fuel : nat) :
  forall (r : irand_state) (x : Z) (r' : irand_state),
    irand_draw fuel lim r = Some (x, r') ->
    exists k : nat,
      (k < fuel)%nat
      /\ (forall j : nat, (j < k)%nat -> irand32_nth j r < lim)
      /\ lim <= irand32_nth k r
      /\ x = irand32_nth k r
      /\ r' = irand32_iter (S k) r.
Proof.
  induction fuel as [|fuel IH]; intros r x r' H; [discriminate H|].
  cbn [irand_draw] in H.
  destruct (irand32 r) as [x0 r0] eqn:E.
  assert (E0 : irand32_nth 0 r = x0)
    by (unfold irand32_nth; cbn [irand32_iter]; now rewrite E).
  assert (E1 : irand32_iter 1 r = r0)
    by (rewrite irand32_iter_S; cbn [irand32_iter]; now rewrite E).
  assert (Er0 : r0 = snd (irand32 r)) by now rewrite E.
  destruct (x0 <? lim) eqn:El.
  - apply Z.ltb_lt in El.
    destruct (IH r0 x r' H) as (k & Hk & Hlow & Hacc & Hx & Hr).
    exists (S k). split; [lia|].
    rewrite Er0, irand32_nth_shift in Hacc, Hx.
    rewrite Er0, irand32_iter_shift in Hr.
    split; [|split; [exact Hacc | split; [exact Hx | exact Hr]]].
    intros j Hj. destruct j as [|j]; [now rewrite E0|].
    rewrite <- irand32_nth_shift, <- Er0. apply Hlow. lia.
  - apply Z.ltb_ge in El.
    apply some_eq in H. destruct (pair_eq _ _ _ _ H) as [Hx Hr].
    exists 0%nat. split; [lia|]. split; [intros j Hj; lia|].
    rewrite E0, E1. split; [exact El|]. split; congruence.
Qed.

Lemma irand_draw_none (lim : Z) (fuel : nat) :
  forall r : irand_state,
    irand_draw fuel lim r = None
    <-> (forall j : nat, (j < fuel)%nat -> irand32_nth j r < lim).
Proof.
  induction fuel as [|fuel IH]; intros r.
  - split; [intros _ j Hj; lia | reflexivity].
  - cbn [irand_draw].
    destruct (irand32 r) as [x0 r0] eqn:E.
    assert (E0 : irand32_nth 0 r = x0)
      by (unfold irand32_nth; cbn [irand32_iter]; now rewrite E).
    assert (Er0 : r0 = snd (irand32 r)) by now rewrite E.
    destruct (x0 <? lim) eqn:El.
    + apply Z.ltb_lt in El. rewrite IH. split.
      * intros Hlow j Hj. destruct j as [|j]; [now rewrite E0|].
        rewrite <- irand32_nth_shift, <- Er0. apply Hlow. lia.
      * intros Hlow j Hj. rewrite Er0, irand32_nth_shift. apply Hlow. lia.
    + apply Z.ltb_ge in El. split; [discriminate|].
      intros Hlow. specialize (Hlow 0%nat ltac:(lia)). lia.
Qed.

(** X11: whatever [irand_mod] returns comes from the first word of the
    stream that it does not reject: every earlier word was rejected, the
    words up to that one are consumed and no more, and the value is that
    word reduced.  The bounded model gives no result exactly when [n + 1]
    is not 0 modulo 2^32 and every word within the bound is rejected, and a
    result, once found, stays the same under any larger bound. *)
Theorem irand_mod_first_accepted (fuel : nat) (r : irand_state) (n : Z) :
  (forall (v : Z) (r' : irand_state),
     irand_mod fuel r n = Some (v, r') ->
     exists k : nat,
       (forall j : nat, (j < k)%nat ->
          sampler_rejects n (irand32_nth j r) = true)
       /\ sampler_rejects n (irand32_nth k r) = false
       /\ v = sampler_value n (irand32_nth k r)
       /\ r' = irand32_iter (S k) r
       /\ (forall fuel' : nat, (fuel <= fuel')%nat ->
             irand_mod fuel' r n = Some (v, r')))
  /\ (irand_mod fuel r n = None
      <-> wrap (n + 1) <> 0
          /\ (forall j : nat, (j < fuel)%nat ->
                sampler_rejects n (irand32_nth j r) = true)).
Proof.
  unfold irand_mod, sampler_rejects, sampler_value. cbv zeta.
  destruct (wrap (n + 1) =? 0) eqn:Em.
  - apply Z.eqb_eq in Em. split.
    + intros v r' H. apply some_eq in H.
      exists 0%nat. split; [intros j Hj; lia|]. split; [reflexivity|].
      unfold irand32_nth. rewrite irand32_iter_S. cbn [irand32_iter].
      rewrite H, fst_pair, snd_pair. repeat split.
    + split; [discriminate | intros [Hne _]; contradiction].
  - apply Z.eqb_neq in Em. split.
    + intros v r' H.
      destruct (irand_draw fuel (irand_lim (wrap (n + 1))) r)
        as [[x r1]|] eqn:Ed; [|discriminate H].
      apply some_eq in H. destruct (pair_eq _ _ _ _ H) as [Hv Hr].
      destruct (irand_draw_inv _ _ _ _ _ Ed) as (k & Hk & Hlow & Hacc & Hx & Hr1).
      exists k.
      split; [intros j Hj; apply Z.ltb_lt; now apply Hlow|].
      split; [now apply Z.ltb_ge|].
      split; [now rewrite <- Hv, Hx|].
      split; [now rewrite <- Hr, Hr1|].
      intros fuel' Hfuel.
      rewrite (irand_draw_first _ k fuel' r) by (lia || assumption).
      now rewrite <- Hx, <- Hr1, Hv, Hr.
    + destruct (irand_draw fuel (irand_lim (wrap (n + 1))) r)
        as [[x r1]|] eqn:Ed.
      * split; [discriminate|]. intros [_ Hlow].
        assert (Hnone : irand_draw fuel (irand_lim (wrap (n + 1))) r = None).
        { apply irand_draw_none. intros j Hj. apply Z.ltb_lt. now apply Hlow. }
        rewrite Hnone in Ed. discriminate Ed.
      * split; [|reflexivity]. intros _. split; [exact Em|].
        intros j Hj. apply Z.ltb_lt.
        now apply (proj1 (irand_draw_none _ _ _) Ed).
Qed.

Lemma irand_mod_first_accepted_witness :
  irand_mod 1 fresh_stream 9
  = Some (irand32_nth 0 fresh_stream mod 10, irand32_iter 1 fresh_stream)
  /\ exists k : nat,
       sampler_rejects 9 (irand32_nth k fresh_stream) = false
       /\ irand32_nth 0 fresh_stream mod 10
          = sampler_value 9 (irand32_nth k fresh_stream).
Proof.
  assert (E : irand_mod 1 fresh_stream 9
              = Some (irand32_nth 0 fresh_stream mod 10,
                      irand32_iter 1 fresh_stream))
    by (vm_compute; reflexivity).
  split; [exact E|].
  destruct (irand_mod_first_accepted 1 fresh_stream 9) as [H _].
  destruct (H _ _ E) as (k & _ & Hacc & Hv & _).
  exists k. split; [exact Hacc | exact Hv].
Defined.

(** ** The threshold and the residues *)

Lemma irand_lim_mod (m : Z) :
  0 < m < modulus -> irand_lim m = modulus mod m.
Proof.
  intros H. unfold irand_lim. rewrite neg32_pos by exact H.
  replace (modulus - m) with (modulus + (-1) * m) by lia.
  apply Z.mod_add. lia.
Qed.

(** X12: for [m] in [[1, 2^32 - 1]] the threshold [-m % m] computed on
    [uint32_t] is [2^32 mod m], as the comment in the source says; with it
    the accepted words [lim .. 2^32 - 1] are a whole number of runs of [m],
    and fewer than half of the 2^32 words are rejected. *)
Theorem irand_lim_remainder (m : Z) :
  0 < m < 2 ^ 32 ->
  irand_lim m = 2 ^ 32 mod m
  /\ 2 ^ 32 - irand_lim m = (2 ^ 32 / m) * m
  /\ 2 * irand_lim m < 2 ^ 32
  /\ 2 * count_rejected (m - 1) < 2 ^ 32.
Proof.
  intros Hm.
  assert (Hlim : irand_lim m = 2 ^ 32 mod m)
    by (now apply irand_lim_mod).
  pose proof (Z.div_mod (2 ^ 32) m ltac:(lia)) as Hdiv.
  pose proof (Z.mod_pos_bound (2 ^ 32) m ltac:(lia)) as Hrange.
  assert (Hq : 1 <= 2 ^ 32 / m) by (apply Z.div_le_lower_bound; lia).
  assert (Hhalf : 2 * irand_lim m < 2 ^ 32) by (rewrite Hlim; nia).
  split; [exact Hlim|]. split; [rewrite Hlim; lia|]. split; [exact Hhalf|].
  unfold count_rejected.
  assert (Hrej : forall x : Z,
            sampler_rejects (m - 1) x = (x <? irand_lim m)).
  { intros x. unfold sampler_rejects.
    replace (m - 1 + 1) with m by lia.
    rewrite wrap_small by (change modulus with (2 ^ 32); lia).
    destruct (m =? 0) eqn:E; [apply Z.eqb_eq in E; lia | reflexivity]. }
  rewrite (List.filter_ext _ _ Hrej).
  rewrite count_below; [exact Hhalf|].
  change modulus with (2 ^ 32). lia.
Qed.

Lemma irand_lim_remainder_witness :
  0 < 10 < 2 ^ 32
  /\ irand_lim 10 = 2 ^ 32 mod 10
  /\ 2 * count_rejected 9 < 2 ^ 32.
Proof.
  split; [lia|].
  destruct (irand_lim_remainder 10) as (H1 & _ & _ & H2); [lia|].
  split; [exact H1 | exact H2].
Defined.







(** ** Identifiers that cancel *)

Lemma xor_byte_at_twice (big_endian : bool) (mm : list Z) (k : Z) (v : byte) :
  xor_byte_at big_endian (xor_byte_at big_endian mm k v) k v = mm.
Proof.
  unfold xor_byte_at, store_at, word_at.
  set (i := Z.to_nat (k / sizeof_uint32)).
  set (x := Z.shiftl (Z.of_N (Byte.to_N v)) (byte_shift big_endian k)).
  destruct (Nat.lt_ge_cases i (length mm)) as [Hlt | Hge].
  - rewrite list_lookup_total_insert_eq by exact Hlt.
    rewrite list_insert_insert_eq.
    rewrite Z.lxor_assoc, Z.lxor_nilpotent, Z.lxor_0_r.
    apply list_insert_id. now apply list_lookup_lookup_total_lt.
  - rewrite !(list_insert_ge mm) by exact Hge. reflexivity.
Qed.

(** Folding the same bytes in twice at the same place restores the array. *)
Lemma xor_bytes_twice (big_endian : bool) (buf : list byte) :
  forall (mm : list Z) (k : Z),
    xor_bytes big_endian (xor_bytes big_endian mm k buf) k buf = mm.
Proof.
  induction buf as [|v buf IH]; intros mm k; [reflexivity|].
  cbn [xor_bytes].
  rewrite xor_bytes_byte_comm, xor_byte_at_twice. apply IH.
Qed.

(** X14: a user id and a group id that are equal cancel each other.  When
    the four identifiers have one and the same size, the user id and the
    group id are XORed into the same bytes, so if the two are equal
    [isaac_seed] yields the generator it yields for any other equal pair
    in their place, the pair of zeros included. *)
Theorem isaac_seed_equal_ids_cancel (big_endian : bool) (s : isaac_state)
    (env : entropy) (id : list byte) :
  buf_size (e_ppid env) = buf_size (e_pid env) ->
  buf_size (e_uid env) = buf_size (e_pid env) ->
  buf_size id = buf_size (e_pid env) ->
  2 * buf_size (e_pid env) <= ISAAC_BYTES ->
  e_gid env = e_uid env ->
  isaac_seed big_endian s (with_uid_gid env id id)
  = isaac_seed big_endian s env.
Proof.
  intros Hppid Huid Hid Hsize Hgid.
  assert (Hpos : 0 <= buf_size (e_pid env)) by (unfold buf_size; lia).
  assert (Hfit : forall p2 p3 : list byte,
            buf_size p2 = buf_size (e_pid env) ->
            buf_size p3 = buf_size (e_pid env) ->
            pieces_fit (s_c (isaac_seed_start s)) [e_pid env; p2; p3; p3]
            = true).
  { intros p2 p3 H2 H3. rewrite s_c_isaac_seed_start.
    cbn [pieces_fit]. rewrite H2, H3, !andb_true_iff, !Z.leb_le. lia. }
  rewrite !isaac_seed_eq.
  assert (Hdev : forall s0 : isaac_state,
            seed_device big_endian s0 (with_uid_gid env id id)
            = seed_device big_endian s0 env) by reflexivity.
  rewrite Hdev.
  cbn [with_uid_gid e_pid e_ppid e_uid e_gid e_time]. rewrite Hgid.
  rewrite !seed_pieces_fit_layout
    by (first [ rewrite s_c_isaac_seed_start; change ISAAC_BYTES with 1024; lia
              | apply Hfit; assumption ]).
  cbn [seed_layout seed_cursor]. rewrite Hppid, Huid, Hid.
  now rewrite !xor_bytes_twice.
Qed.

Lemma isaac_seed_equal_ids_cancel_witness :
  (buf_size (e_ppid (with_uid_gid sample_entropy [xe8; x03; x00; x00]
                       [xe8; x03; x00; x00]))
   = 4
   /\ 2 * 4 <= ISAAC_BYTES)
  /\ isaac_seed false stale_state
       (with_uid_gid sample_entropy [x00; x00; x00; x00] [x00; x00; x00; x00])
     = isaac_seed false stale_state
         (with_uid_gid sample_entropy [xe8; x03; x00; x00]
            [xe8; x03; x00; x00]).
Proof.
  split; [split; vm_compute; congruence|].
  apply (isaac_seed_equal_ids_cancel false stale_state
           (with_uid_gid sample_entropy [xe8; x03; x00; x00]
              [xe8; x03; x00; x00])
           [x00; x00; x00; x00]);
    vm_compute; congruence.
Defined.

(** ** The mixing pass loses nothing *)

Lemma mix_steps (p : acc8) :
  mix p
  = mix_step (fun x => shr32 x 9)
      (mix_step (fun x => shl32 x 8)
         (mix_step (fun x => shr32 x 4)
            (mix_step (fun x => shl32 x 10)
               (mix_step (fun x => shr32 x 16)
                  (mix_step (fun x => shl32 x 8)
                     (mix_step (fun x => shr32 x 2)
                        (mix_step (fun x => shl32 x 11) p))))))).
Proof.
  destruct p as [[[[[[[a b] c] d] e] f] g] h].
  cbv -[add32 xor32 shl32 shr32]. reflexivity.
Qed.

Lemma add32_cancel_r (x y a : Z) :
  in_word x -> in_word y -> add32 x a = add32 y a -> x = y.
Proof.
  unfold in_word, add32, wrap. intros Hx Hy H.
  assert (Hm : 0 < modulus) by reflexivity.
  pose proof (Z.div_mod (x + a) modulus ltac:(lia)) as D1.
  pose proof (Z.div_mod (y + a) modulus ltac:(lia)) as D2.
  rewrite H in D1.
  assert ((x + a) / modulus = (y + a) / modulus) by nia.
  nia.
Qed.

Lemma add32_cancel_l (x y a : Z) :
  in_word x -> in_word y -> add32 a x = add32 a y -> x = y.
Proof.
  unfold add32. rewrite (Z.add_comm a x), (Z.add_comm a y).
  apply add32_cancel_r.
Qed.

Lemma xor32_cancel_r (x y a : Z) : xor32 x a = xor32 y a -> x = y.
Proof.
  unfold xor32. intros H.
  rewrite <- (Z.lxor_0_r x), <- (Z.lxor_0_r y), <- (Z.lxor_nilpotent a).
  now rewrite <- !Z.lxor_assoc, H.
Qed.

Lemma mix_step_words (shift : Z -> Z) (p : acc8) :
  (forall x : Z, in_word x -> in_word (shift x)) ->
  acc8_words p -> acc8_words (mix_step shift p).
Proof.
  intros Hshift. destruct p as [[[[[[[a b] c] d] e] f] g] h].
  intros (Ha & Hb & Hc & Hd & He & Hf & Hg & Hh).
  unfold mix_step, acc8_words.
  repeat first
    [ assumption | apply in_word_add32 | apply in_word_xor32
    | apply Hshift | split ].
Qed.

Lemma mix_step_inj (shift : Z -> Z) (p q : acc8) :
  acc8_words p -> acc8_words q ->
  mix_step shift p = mix_step shift q -> p = q.
Proof.
  destruct p as [[[[[[[a b] c] d] e] f] g] h].
  destruct q as [[[[[[[a' b'] c'] d'] e'] f'] g'] h'].
  intros (Ha & Hb & Hc & Hd & He & Hf & Hg & Hh).
  intros (Ha' & Hb' & Hc' & Hd' & He' & Hf' & Hg' & Hh').
  unfold mix_step. intros H.
  injection H as Eb Ec Ed Ee Ef Eg Eh Ea.
  subst c' e' f' g' h'.
  apply add32_cancel_r in Eb; [subst b' | assumption ..].
  apply xor32_cancel_r in Ea. subst a'.
  apply add32_cancel_r in Ed; [subst d' | assumption ..].
  reflexivity.
Qed.

Lemma shl32_word (n : Z) (x : Z) : in_word x -> in_word (shl32 x n).
Proof. intros _. apply in_word_shl32. Qed.

Lemma shr32_word (n : Z) : 0 <= n -> forall x : Z, in_word x -> in_word (shr32 x n).
Proof. intros Hn x Hx. now apply in_word_shr32. Qed.

Lemma mix_inj (p q : acc8) :
  acc8_words p -> acc8_words q -> mix p = mix q -> p = q.
Proof.
  intros Hp Hq. rewrite !mix_steps. intros H.
  repeat
    (apply mix_step_inj in H;
     [| repeat first
          [ assumption
          | apply mix_step_words;
            [ first [ apply shl32_word | apply shr32_word; lia ] | ] ] ..]).
  exact H.
Qed.

(** X15: [mix] never maps two different sets of eight 32-bit accumulators
    to the same result: each of its steps can be undone, so the function
    is one-to-one on words and its results are words again. *)
Theorem mix_one_to_one (p q : acc8) :
  acc8_words p -> acc8_words q ->
  acc8_words (mix p) /\ (mix p = mix q -> p = q).
Proof.
  intros Hp Hq. split; [now apply mix_words|].
  rewrite !mix_steps. intros H.
  repeat
    (apply mix_step_inj in H;
     [| repeat first
          [ assumption
          | apply mix_step_words;
            [ first [ apply shl32_word | apply shr32_word; lia ] | ] ] ..]).
  exact H.
Qed.

Lemma mix_one_to_one_witness :
  acc8_words (1, 2, 3, 4, 5, 6, 7, 8)
  /\ acc8_words (mix (1, 2, 3, 4, 5, 6, 7, 8)).
Proof.
  assert (H : acc8_words (1, 2, 3, 4, 5, 6, 7, 8))
    by (vm_compute; intuition discriminate).
  split; [exact H|].
  exact (proj1 (mix_one_to_one (1, 2, 3, 4, 5, 6, 7, 8)
                  (1, 2, 3, 4, 5, 6, 7, 8) H H)).
Defined.

Lemma all_words_cons (x : Z) (l : list Z) :
  all_words (x :: l) = true <-> in_word x /\ all_words l = true.
Proof.
  unfold all_words. cbn [forallb]. rewrite andb_true_iff, is_word_spec.
  reflexivity.
Qed.

Lemma acc8_to_list_app_inj (p q : acc8) (l1 l2 : list Z) :
  acc8_to_list p ++ l1 = acc8_to_list q ++ l2 -> p = q /\ l1 = l2.
Proof.
  destruct p as [[[[[[[a b] c] d] e] f] g] h].
  destruct q as [[[[[[[a' b'] c'] d'] e'] f'] g'] h'].
  cbn [acc8_to_list app]. intros H.
  injection H as -> -> -> -> -> -> -> -> ->. split; reflexivity.
Qed.

Lemma mix_chain_inj (n : nat) :
  forall (p : acc8) (l1 l2 : list Z),
    length l1 = (8 * n)%nat -> length l2 = (8 * n)%nat ->
    all_words l1 = true -> all_words l2 = true ->
    snd (mix_chain p l1) = snd (mix_chain p l2) ->
    l1 = l2.
Proof.
  induction n as [|n IH]; intros p l1 l2 H1 H2 W1 W2 H.
  - destruct l1; [|discriminate]. destruct l2; [reflexivity | discriminate].
  - destruct l1 as [|x0 [|x1 [|x2 [|x3 [|x4 [|x5 [|x6 [|x7 r1]]]]]]]];
      try (simpl in H1; lia).
    destruct l2 as [|y0 [|y1 [|y2 [|y3 [|y4 [|y5 [|y6 [|y7 r2]]]]]]]];
      try (simpl in H2; lia).
    destruct p as [[[[[[[a b] c] d] e] f] g] h].
    cbn [mix_chain] in H.
    repeat (apply all_words_cons in W1; destruct W1 as [? W1]).
    repeat (apply all_words_cons in W2; destruct W2 as [? W2]).
    set (p1 := (add32 a x0, add32 b x1, add32 c x2, add32 d x3,
                add32 e x4, add32 f x5, add32 g x6, add32 h x7)) in *.
    set (p2 := (add32 a y0, add32 b y1, add32 c y2, add32 d y3,
                add32 e y4, add32 f y5, add32 g y6, add32 h y7)) in *.
    assert (Hp1 : acc8_words p1) by (repeat first [apply in_word_add32 | split]).
    assert (Hp2 : acc8_words p2) by (repeat first [apply in_word_add32 | split]).
    destruct (mix_chain (mix p1) r1) as [q1 o1] eqn:E1.
    destruct (mix_chain (mix p2) r2) as [q2 o2] eqn:E2.
    cbn [snd] in H.
    apply acc8_to_list_app_inj in H. destruct H as [Hmix Ho].
    pose proof (mix_inj p1 p2 Hp1 Hp2 Hmix) as Hp.
    subst p1 p2. injection Hp as E0 E1' E2' E3 E4 E5 E6 E7.
    assert (Hrest : r1 = r2).
    { apply (IH (mix (add32 a x0, add32 b x1, add32 c x2, add32 d x3,
                      add32 e x4, add32 f x5, add32 g x6, add32 h x7))).
      - cbn [length] in H1. lia.
      - cbn [length] in H2. lia.
      - exact W1.
      - exact W2.
      - rewrite E1, Hmix, E2. exact Ho. }
    apply add32_cancel_l in E0, E1', E2', E3, E4, E5, E6, E7; try assumption.
    congruence.
Qed.

(** X16: one pass of [isaac_mix] over the main array loses nothing of the
    seed.  Two generators with the same [iv] whose main arrays hold 32-bit
    words and differ are still different after the pass: equal arrays
    after it mean equal arrays before it. *)
Theorem isaac_mix_one_to_one (s1 s2 : isaac_state) :
  length (s_mm s1) = 256%nat -> length (s_mm s2) = 256%nat ->
  length (s_iv s1) = 8%nat ->
  all_words (s_mm s1) = true -> all_words (s_mm s2) = true ->
  s_iv s2 = s_iv s1 ->
  s_mm (isaac_mix s1 SeedState) = s_mm (isaac_mix s2 SeedState) ->
  s_mm s1 = s_mm s2.
Proof.
  intros L1 L2 Liv W1 W2 Eiv.
  rewrite !isaac_mix_chain by (rewrite ?Eiv; assumption).
  cbn [s_mm]. rewrite Eiv.
  now apply (mix_chain_inj 32).
Qed.

Lemma isaac_mix_one_to_one_witness :
  (length (s_mm fresh_state) = 256%nat /\ length (s_iv fresh_state) = 8%nat
   /\ all_words (s_mm fresh_state) = true)
  /\ s_mm fresh_state = s_mm (set_c fresh_state 5).
Proof.
  split; [repeat apply conj; vm_compute; reflexivity|].
  apply isaac_mix_one_to_one; vm_compute; reflexivity.
Defined.
